(** * Opstrace config API (go/cmd/graphql/main.go): reconciliation and validation core

    A shallow embedding of the request handlers for tenant credentials and
    exporters, and of the two helpers they rely on ([validateCredValue] and
    [recurseMapStringKeys]).  Go strings are byte strings ([string]), Go
    [error] values are represented by their message, the empty interface is
    the tagged union [value], and the store clients (Go interfaces) are a
    type class over an explicit store state. *)

From Stdlib Require Import String Ascii List ZArith Lia Bool.
From stdpp Require Import base option list gmap strings pretty.

Local Open Scope string_scope.
Local Open Scope list_scope.

#[local] Set Warnings "-register-all".

(** ** Results of fallible Go calls: [(T, error)] *)

Inductive result (A : Type) : Type :=
| Ok (a : A)
| Err (msg : string).
Arguments Ok {A} a.
Arguments Err {A} msg.

Definition is_ok {A} (r : result A) : bool :=
  match r with Ok _ => true | Err _ => false end.

(** The [error] half of a result ([None] is Go's [nil]). *)
Definition result_err {A} (r : result A) : option string :=
  match r with Ok _ => None | Err e => Some e end.

(** ** Decoded YAML documents: the dynamic values behind [interface{}] *)

(** Hashable scalars, the only values yaml.v2 stores as map keys. *)
Inductive scalar : Type :=
| SNil
| SBool (b : bool)
| SInt (n : Z)
| SFloat (bits : Z)
| SStr (s : string).

(** [Map] is Go's [map[interface{}]interface{}] (what yaml.v2 decodes a
    mapping to), [StrMap] is [map[string]interface{}] (what encoding/json
    can marshal), [Seq] is [[]interface{}].  Maps are association lists; a
    Go map never holds two equal keys. *)
Inductive value : Type :=
| Scalar (c : scalar)
| Seq (l : list value)
| Map (m : list (scalar * value))
| StrMap (m : list (string * value)).

Definition VStr (s : string) : value := Scalar (SStr s).

#[global] Instance scalar_eq_dec : EqDecision scalar.
Proof. solve_decision. Defined.

(** [m[k]] with the comma-ok form, on [map[interface{}]interface{}]. *)
Fixpoint map_get (k : scalar) (m : list (scalar * value)) : option value :=
  match m with
  | [] => None
  | (k', v) :: rest => if decide (k' = k) then Some v else map_get k rest
  end.

(** [m[k] = v] on [map[string]interface{}]: replace the binding of [k],
    or add one. *)
Fixpoint strmap_set (k : string) (v : value) (m : list (string * value))
  : list (string * value) :=
  match m with
  | [] => [(k, v)]
  | (k', v') :: rest =>
      if decide (k' = k) then (k, v) :: rest else (k', v') :: strmap_set k v rest
  end.

(** ** recurseMapStringKeys (main.go, lines 572-605) *)

Definition keys_must_be_strings : string :=
  "map is invalid (keys must be strings)".

(** The two [for ... range] loops, over the recursive call [rec].  Go
    visits the entries of a map in no fixed order; the model visits them in
    list order, which gives the same result: every failure is the same
    error, and on success every entry has been stored under its own key. *)
Definition rangeMap (rec : value -> result value)
  : list (scalar * value) -> list (string * value) -> result value :=
  fix range kvs strMap :=
    match kvs with
    | [] => Ok (StrMap strMap)
    | (k, x) :: rest =>
        match k with
        | SStr kType =>
            match rec x with
            | Err e => Err e
            | Ok conv => range rest (strmap_set kType conv strMap)
            end
        | _ => Err keys_must_be_strings
        end
    end.

(** The slice is converted in place, entry [i] at turn [i]; [vs] are the
    entries still to visit. *)
Definition rangeSeq (rec : value -> result value)
  : nat -> list value -> list value -> result value :=
  fix range i vs inType :=
    match vs with
    | [] => Ok (Seq inType)
    | v :: rest =>
        match rec v with
        | Err e => Err e
        | Ok conv => range (S i) rest (<[i:=conv]> inType)
        end
    end.

Fixpoint recurseMapStringKeys (v : value) : result value :=
  match v with
  | Map inType => rangeMap recurseMapStringKeys inType []
  | Seq inType => rangeSeq recurseMapStringKeys 0 inType inType
  | _ => Ok v
  end.

(** ** HTTP requests and responses *)

(** What a handler writes to the [http.ResponseWriter]: the text line of an
    [http.Error], or one YAML document produced by [encoder.Encode] on a
    struct whose fields are all strings (key and scalar, in field order). *)
Inductive Output : Type :=
| Line (msg : string)
| YamlDoc (fields : list (string * string)).

Record Response : Type := mkResponse { status : nat; body : list Output }.

Definition StatusOK : nat := 200.
Definition StatusBadRequest : nat := 400.
Definition StatusNotFound : nat := 404.
Definition StatusInternalServerError : nat := 500.

Definition http_Error (msg : string) (code : nat) : Response :=
  mkResponse code [Line msg].

(** A handler that returns without writing anything answers 200 with an
    empty body. *)
Definition no_content : Response := mkResponse StatusOK [].

(** A request: its URL, the values of the [X-Scope-Orgid] header (if the
    header is present), the [{name}] path variable, and the body as the
    strict YAML decoder delivers it, one [Decode] call per element; the end
    of the list is [io.EOF]. *)
Record Request (R : Type) : Type := mkRequest {
  req_URL : string;
  req_Tenants : option (list string);
  req_Name : string;
  req_Body : list (result R)
}.
Arguments mkRequest {R}.
Arguments req_URL {R}.
Arguments req_Tenants {R}.
Arguments req_Name {R}.
Arguments req_Body {R}.

(** Early [return] from a handler, or fall through with a value. *)
Inductive flow (A : Type) : Type :=
| Next (a : A)
| Return (r : Response).
Arguments Next {A} a.
Arguments Return {A} r.

(** ** getTenant (main.go, lines 677-686) *)

Definition getTenant {R} (r : Request R) : result string :=
  match req_Tenants r with
  | None => Err ("missing tenant ID in request to " +:+ req_URL r)
  | Some tenants =>
      if negb (length tenants =? 1)%nat
         || (String.length (hd EmptyString tenants) =? 0)%nat
      then Err ("invalid tenant ID in request to " +:+ req_URL r)
      else Ok (hd EmptyString tenants)
  end.

(** ** Types of the graphql package, as the handlers use them *)

Definition Json : Type := string.
Definition Timestamptz : Type := string.

(** Modelled from the spec: the row type of [ListCredentialsResponse] and
    [GetCredentialResponse] is declared in go/pkg/graphql, outside this
    source; the handlers read Name, Type, CreatedAt and UpdatedAt, and the
    stored credential also carries its secret value (spec, section 3). *)
Record CredentialRow : Type := mkCredentialRow {
  cr_Name : string;
  cr_Type : string;
  cr_Value : Json;
  cr_CreatedAt : string;
  cr_UpdatedAt : string
}.

Record CredentialInsertInput : Type := mkCredentialInsertInput {
  ci_Name : string;
  ci_Type : string;
  ci_Value : Json;
  ci_CreatedAt : Timestamptz;
  ci_UpdatedAt : Timestamptz
}.

Record UpdateCredentialVariables : Type := mkUpdateCredentialVariables {
  cu_Name : string;
  cu_Value : Json;
  cu_UpdatedAt : Timestamptz
}.

(** Modelled from the spec: the row type of [ListExportersResponse], of
    which [writeExporters] reads Name and Type only. *)
Record ExporterRow : Type := mkExporterRow {
  er_Name : string;
  er_Type : string
}.

Record ExporterInsertInput : Type := mkExporterInsertInput {
  ei_Name : string;
  ei_Type : string;
  ei_Credential : option string;
  ei_Config : Json;
  ei_CreatedAt : Timestamptz;
  ei_UpdatedAt : Timestamptz
}.

Record UpdateExporterVariables : Type := mkUpdateExporterVariables {
  eu_Name : string;
  eu_Credential : option string;
  eu_Config : Json;
  eu_UpdatedAt : Timestamptz
}.

(** ** Request records (main.go, lines 153-158 and 425-431) *)

Record Credential : Type := mkCredential {
  Credential_Name : string;
  Credential_Type : string;
  Credential_Value : value
}.

Record Exporter : Type := mkExporter {
  Exporter_Name : string;
  Exporter_Type : string;
  Exporter_Credential : string;
  Exporter_Config : value
}.

(** ** CredentialInfo (main.go, lines 113-121) and its YAML encoding *)

Record CredentialInfo : Type := mkCredentialInfo {
  Name : string;
  Type_ : string;
  CreatedAt : string;
  UpdatedAt : string
}.

(** A field tagged [omitempty] is left out when it is the empty string. *)
Definition omitempty (key val : string) : list (string * string) :=
  if decide (val = EmptyString) then [] else [(key, val)].

Definition encode_CredentialInfo (c : CredentialInfo) : Output :=
  YamlDoc ([("name", Name c)]
             ++ omitempty "type" (Type_ c)
             ++ omitempty "created_at" (CreatedAt c)
             ++ omitempty "updated_at" (UpdatedAt c)).

(** ** The store clients: interfaces CredentialAccess and ExporterAccess *)

Class CredentialAccess (St : Type) : Type := {
  cred_List : string -> St -> result (list CredentialRow) * St;
  cred_Get : string -> string -> St -> result (option CredentialRow) * St;
  cred_Insert : string -> list CredentialInsertInput -> St -> option string * St;
  cred_Update : string -> UpdateCredentialVariables -> St -> option string * St
}.

Class ExporterAccess (St : Type) : Type := {
  exp_List : string -> St -> result (list ExporterRow) * St;
  exp_Insert : string -> list ExporterInsertInput -> St -> option string * St;
  exp_Update : string -> UpdateExporterVariables -> St -> option string * St
}.

(** The calls a handler can make on the clients. *)
Inductive Call : Type :=
| CredList (tenant : string)
| CredGet (tenant name : string)
| CredInsert (tenant : string) (inserts : list CredentialInsertInput)
| CredUpdate (tenant : string) (update : UpdateCredentialVariables)
| ExpList (tenant : string)
| ExpInsert (tenant : string) (inserts : list ExporterInsertInput)
| ExpUpdate (tenant : string) (update : UpdateExporterVariables).

(** ** A state monad over the store and the log of calls *)

(** The log holds every call in the order the handler makes it, with the
    error it came back with. *)
Record World (St : Type) : Type :=
  mkWorld { store : St; calls : list (Call * option string) }.
Arguments mkWorld {St}.
Arguments store {St}.
Arguments calls {St}.

Definition M (St A : Type) : Type := World St -> A * World St.

Definition ret {St A} (a : A) : M St A := fun w => (a, w).

Definition bind {St A B} (m : M St A) (k : A -> M St B) : M St B :=
  fun w => let (a, w') := m w in k a w'.

Notation "x <- m ;; k" := (bind m (fun x => k))
  (at level 100, m at next level, right associativity).

(** One client call: run it on the store and log it. *)
Definition invoke {St A} (c : Call) (err : A -> option string)
    (op : St -> A * St) : M St A :=
  fun w =>
    let (a, s) := op (store w) in (a, mkWorld s (calls w ++ [(c, err a)])).

(** ** AWSCredentialValue (main.go, lines 266-269) *)

Record AWSCredentialValue : Type := mkAWSCredentialValue {
  AwsAccessKeyID : string;
  AwsSecretAccessKey : string
}.

Definition dquote : string := String (ascii_of_nat 34) EmptyString.

Definition quoted (s : string) : string := dquote +:+ s +:+ dquote.

Section Handlers.

(** encoding/json, taken as given: [json_String s] is the JSON string
    literal [json.Marshal] writes for the Go string [s], [json_Valid] is
    [json.Valid], and [json_Marshal] is [json.Marshal] on a dynamic
    value (it fails on values JSON cannot represent). *)
Variable json_String : string -> string.
Variable json_Valid : string -> bool.
Variable json_Marshal : value -> result Json.

(** [json.Marshal] on the struct: an object with the two tagged field
    names, in declaration order; it cannot fail on string fields. *)
Definition json_Marshal_AWSCredentialValue (a : AWSCredentialValue)
  : result Json :=
  Ok ("{" +:+ quoted "AWS_ACCESS_KEY_ID" +:+ ":"
          +:+ json_String (AwsAccessKeyID a)
          +:+ "," +:+ quoted "AWS_SECRET_ACCESS_KEY" +:+ ":"
          +:+ json_String (AwsSecretAccessKey a) +:+ "}").

(** ** validateCredValue (main.go, lines 271-319) *)

Definition errfmt (credType credName reason : string) : string :=
  "expected " +:+ credType +:+ " credential '" +:+ credName
    +:+ "' value to contain YAML string fields: "
    +:+ "AWS_ACCESS_KEY_ID and AWS_SECRET_ACCESS_KEY (" +:+ reason +:+ ")".

Definition not_valid_json (credType credName : string) : string :=
  credType +:+ " credential '" +:+ credName
    +:+ "' value is not a valid JSON string".

Definition not_json_string (credType credName : string) : string :=
  "expected " +:+ credType +:+ " credential '" +:+ credName
    +:+ "' value to be a JSON string".

Definition unsupported_type (credType : string) : string :=
  "unsupported credential type: " +:+ credType
    +:+ " (expected aws-key or gcp-service-account)".

Definition validateCredValue (credName credType : string) (credValue : value)
  : result Json :=
  if decide (credType = "aws-key") then
    match credValue with
    | Map v =>
        if negb (length v =? 2)%nat then
          Err (errfmt credType credName "wrong size")
        else
          match map_get (SStr "AWS_ACCESS_KEY_ID") v,
                map_get (SStr "AWS_SECRET_ACCESS_KEY") v with
          | Some key, Some val =>
              match key, val with
              | Scalar (SStr keystr), Scalar (SStr valstr) =>
                  match json_Marshal_AWSCredentialValue
                          (mkAWSCredentialValue keystr valstr) with
                  | Err _ =>
                      Err (errfmt credType credName
                             "failed to reserialize as JSON")
                  | Ok json => Ok json
                  end
              | _, _ => Err (errfmt credType credName "non-string fields")
              end
          | _, _ => Err (errfmt credType credName "missing fields")
          end
    | _ => Err (errfmt credType credName "expected a map")
    end
  else if decide (credType = "gcp-service-account") then
    match credValue with
    | Scalar (SStr v) =>
        if negb (json_Valid v) then Err (not_valid_json credType credName)
        else Ok v
    | _ => Err (not_json_string credType credName)
    end
  else Err (unsupported_type credType).

(** ** The reconciliation loops of writeCredentials and writeExporters *)

(** [existingTypes], filled from the listing (later rows overwrite). *)
Definition credExistingTypes (rows : list CredentialRow)
  : gmap string string :=
  fold_left (fun m c => <[cr_Name c := cr_Type c]> m) rows ∅.

Definition expExistingTypes (rows : list ExporterRow)
  : gmap string string :=
  fold_left (fun m e => <[er_Name e := er_Type e]> m) rows ∅.

Definition cred_decode_failed (index : nat) (err : string) : string :=
  "Decoding credential input at index=" +:+ pretty index
    +:+ " failed: " +:+ err.

Definition cred_type_change (name current updated : string) : string :=
  "Credential '" +:+ name +:+ "' type cannot be updated (current="
    +:+ current +:+ ", updated=" +:+ updated +:+ ")".

(** main.go, lines 190-236. *)
Fixpoint credLoop (existingTypes : gmap string string) (now : Timestamptz)
    (decoder : list (result Credential))
    (inserts : list CredentialInsertInput)
    (updates : list UpdateCredentialVariables)
  : flow (list CredentialInsertInput * list UpdateCredentialVariables) :=
  match decoder with
  | [] => Next (inserts, updates)
  | Err err :: _ =>
      Return (http_Error
                (cred_decode_failed (length inserts + length updates) err)
                StatusBadRequest)
  | Ok yamlCredential :: rest =>
      let name := Credential_Name yamlCredential in
      let credType := Credential_Type yamlCredential in
      match validateCredValue name credType
              (Credential_Value yamlCredential) with
      | Err err =>
          Return (http_Error
                    ("Credential format validation failed: " +:+ err)
                    StatusBadRequest)
      | Ok value =>
          match existingTypes !! name with
          | Some existingType =>
              if negb (bool_decide (credType = EmptyString))
                 && negb (bool_decide (existingType = credType))
              then
                Return (http_Error
                          (cred_type_change name existingType credType)
                          StatusBadRequest)
              else
                credLoop existingTypes now rest inserts
                  (updates ++ [mkUpdateCredentialVariables name value now])
          | None =>
              credLoop existingTypes now rest
                (inserts ++ [mkCredentialInsertInput
                               name credType value now now])
                updates
          end
      end
  end.

Definition exp_decode_failed (index : nat) (err : string) : string :=
  "Decoding exporter input at index=" +:+ pretty index
    +:+ " failed: " +:+ err.

Definition exp_not_encodable (name err : string) : string :=
  "Exporter '" +:+ name +:+ "' config could not be encoded as JSON: "
    +:+ err.

Definition exp_not_a_map (name : string) : string :=
  "Exporter '" +:+ name +:+ "' config is invalid (must be YAML map)".

Definition exp_type_change (name current updated : string) : string :=
  "Exporter '" +:+ name +:+ "' type cannot be updated (current="
    +:+ current +:+ ", updated=" +:+ updated +:+ ")".

(** main.go, lines 485-512: the config of one record as JSON. *)
Definition exporterConfig (yamlExporter : Exporter) : flow Json :=
  match Exporter_Config yamlExporter with
  | Map yamlMap =>
      match recurseMapStringKeys (Map yamlMap) with
      | Err err =>
          Return (http_Error
                    (exp_not_encodable (Exporter_Name yamlExporter) err)
                    StatusBadRequest)
      | Ok convMap =>
          match json_Marshal convMap with
          | Err err =>
              Return (http_Error
                        (exp_not_encodable (Exporter_Name yamlExporter) err)
                        StatusBadRequest)
          | Ok json => Next json
          end
      end
  | _ =>
      Return (http_Error (exp_not_a_map (Exporter_Name yamlExporter))
                StatusBadRequest)
  end.

(** main.go, lines 461-542. *)
Fixpoint expLoop (existingTypes : gmap string string) (now : Timestamptz)
    (decoder : list (result Exporter))
    (inserts : list ExporterInsertInput)
    (updates : list UpdateExporterVariables)
  : flow (list ExporterInsertInput * list UpdateExporterVariables) :=
  match decoder with
  | [] => Next (inserts, updates)
  | Err err :: _ =>
      Return (http_Error
                (exp_decode_failed (length inserts + length updates) err)
                StatusBadRequest)
  | Ok yamlExporter :: rest =>
      let name := Exporter_Name yamlExporter in
      let credential :=
        if decide (Exporter_Credential yamlExporter = EmptyString)
        then None else Some (Exporter_Credential yamlExporter) in
      match exporterConfig yamlExporter with
      | Return r => Return r
      | Next gconfig =>
          match existingTypes !! name with
          | Some existingType =>
              if negb (bool_decide (Exporter_Type yamlExporter = EmptyString))
                 && negb (bool_decide
                            (existingType = Exporter_Type yamlExporter))
              then
                Return (http_Error
                          (exp_type_change name existingType
                             (Exporter_Type yamlExporter))
                          StatusBadRequest)
              else
                expLoop existingTypes now rest inserts
                  (updates ++ [mkUpdateExporterVariables
                                 name credential gconfig now])
          | None =>
              let expType := Exporter_Type yamlExporter in
              expLoop existingTypes now rest
                (inserts ++ [mkExporterInsertInput
                               name expType credential gconfig now now])
                updates
          end
      end
  end.

(** ** The handlers *)

Context {St : Type} `{!CredentialAccess St} `{!ExporterAccess St}.

Definition credentialInfo (c : CredentialRow) : CredentialInfo :=
  mkCredentialInfo (cr_Name c) (cr_Type c) (cr_CreatedAt c) (cr_UpdatedAt c).

Definition cred_list_failed (tenant err : string) : string :=
  "Listing credentials for tenant " +:+ tenant +:+ " failed: " +:+ err.

(** listCredentials (main.go, lines 123-151). *)
Definition listCredentials {R} (r : Request R) : M St Response :=
  match getTenant r with
  | Err err => ret (http_Error err StatusBadRequest)
  | Ok tenant =>
      resp <- invoke (CredList tenant) result_err (cred_List tenant) ;;
      match resp with
      | Err err =>
          ret (http_Error (cred_list_failed tenant err)
                 StatusInternalServerError)
      | Ok rows =>
          ret (mkResponse StatusOK
                 (map (fun credential =>
                         encode_CredentialInfo (credentialInfo credential))
                    rows))
      end
  end.

(** getCredential (main.go, lines 321-350). *)
Definition getCredential {R} (r : Request R) : M St Response :=
  let name := req_Name r in
  match getTenant r with
  | Err err => ret (http_Error err StatusBadRequest)
  | Ok tenant =>
      resp <- invoke (CredGet tenant name) result_err (cred_Get tenant name) ;;
      match resp with
      | Err err =>
          ret (http_Error ("Getting credential failed: " +:+ err)
                 StatusInternalServerError)
      | Ok None =>
          ret (http_Error ("Credential not found: " +:+ name)
                 StatusNotFound)
      | Ok (Some row) =>
          ret (mkResponse StatusOK
                 [encode_CredentialInfo (credentialInfo row)])
      end
  end.

(** main.go, lines 254-263. *)
Fixpoint credUpdateLoop (tenant : string)
    (updates : list UpdateCredentialVariables) : M St (flow unit) :=
  match updates with
  | [] => ret (Next tt)
  | update :: rest =>
      err <- invoke (CredUpdate tenant update) id
               (cred_Update tenant update) ;;
      match err with
      | Some err =>
          ret (Return (http_Error
                         ("Updating credential " +:+ cu_Name update
                            +:+ " failed: " +:+ err)
                         StatusInternalServerError))
      | None => credUpdateLoop tenant rest
      end
  end.

(** main.go, lines 238-263: the commit phase. *)
Definition credCommit (tenant : string)
    (inserts : list CredentialInsertInput)
    (updates : list UpdateCredentialVariables) : M St Response :=
  if (length inserts + length updates =? 0)%nat then
    ret (http_Error "Missing credential YAML data in request body"
           StatusBadRequest)
  else
    inserted <-
      (if negb (length inserts =? 0)%nat then
         err <- invoke (CredInsert tenant inserts) id
                  (cred_Insert tenant inserts) ;;
         match err with
         | Some err =>
             ret (Return (http_Error
                            ("Creating " +:+ pretty (length inserts)
                               +:+ " credentials failed: " +:+ err)
                            StatusInternalServerError))
         | None => ret (Next tt)
         end
       else ret (Next tt)) ;;
    match inserted with
    | Return resp => ret resp
    | Next _ =>
        updated <-
          (if negb (length updates =? 0)%nat
           then credUpdateLoop tenant updates
           else ret (Next tt)) ;;
        match updated with
        | Return resp => ret resp
        | Next _ => ret no_content
        end
    end.

(** writeCredentials (main.go, lines 160-264); [now] is the value of the
    one [nowTimestamp()] call. *)
Definition writeCredentials (r : Request Credential) (now : Timestamptz)
  : M St Response :=
  match getTenant r with
  | Err err => ret (http_Error err StatusBadRequest)
  | Ok tenant =>
      resp <- invoke (CredList tenant) result_err (cred_List tenant) ;;
      match resp with
      | Err err =>
          ret (http_Error (cred_list_failed tenant err)
                 StatusInternalServerError)
      | Ok rows =>
          match credLoop (credExistingTypes rows) now (req_Body r) [] [] with
          | Return resp => ret resp
          | Next (inserts, updates) => credCommit tenant inserts updates
          end
      end
  end.

Definition exp_list_failed (tenant err : string) : string :=
  "Listing exporters for tenant " +:+ tenant +:+ " failed: " +:+ err.

(** main.go, lines 560-569. *)
Fixpoint expUpdateLoop (tenant : string)
    (updates : list UpdateExporterVariables) : M St (flow unit) :=
  match updates with
  | [] => ret (Next tt)
  | update :: rest =>
      err <- invoke (ExpUpdate tenant update) id
               (exp_Update tenant update) ;;
      match err with
      | Some err =>
          ret (Return (http_Error
                         ("Updating exporter " +:+ eu_Name update
                            +:+ " failed: " +:+ err)
                         StatusInternalServerError))
      | None => expUpdateLoop tenant rest
      end
  end.

(** main.go, lines 544-569: the commit phase. *)
Definition expCommit (tenant : string)
    (inserts : list ExporterInsertInput)
    (updates : list UpdateExporterVariables) : M St Response :=
  if (length inserts + length updates =? 0)%nat then
    ret (http_Error "Missing exporter YAML data in request body"
           StatusBadRequest)
  else
    inserted <-
      (if negb (length inserts =? 0)%nat then
         err <- invoke (ExpInsert tenant inserts) id
                  (exp_Insert tenant inserts) ;;
         match err with
         | Some err =>
             ret (Return (http_Error
                            ("Creating " +:+ pretty (length inserts)
                               +:+ " exporters failed: " +:+ err)
                            StatusInternalServerError))
         | None => ret (Next tt)
         end
       else ret (Next tt)) ;;
    match inserted with
    | Return resp => ret resp
    | Next _ =>
        updated <-
          (if negb (length updates =? 0)%nat
           then expUpdateLoop tenant updates
           else ret (Next tt)) ;;
        match updated with
        | Return resp => ret resp
        | Next _ => ret no_content
        end
    end.

(** writeExporters (main.go, lines 433-570). *)
Definition writeExporters (r : Request Exporter) (now : Timestamptz)
  : M St Response :=
  match getTenant r with
  | Err err => ret (http_Error err StatusBadRequest)
  | Ok tenant =>
      resp <- invoke (ExpList tenant) result_err (exp_List tenant) ;;
      match resp with
      | Err err =>
          ret (http_Error (exp_list_failed tenant err)
                 StatusInternalServerError)
      | Ok rows =>
          match expLoop (expExistingTypes rows) now (req_Body r) [] [] with
          | Return resp => ret resp
          | Next (inserts, updates) => expCommit tenant inserts updates
          end
      end
  end.

(** ** Specification-side notions for batches *)

(** A submitted credential record the batch is rejected for: it does not
    decode, its value fails validation, or it would change the type of an
    existing credential. *)
Inductive cred_rejected (existing : gmap string string)
  : result Credential -> Prop :=
| cred_rejected_decode err : cred_rejected existing (Err err)
| cred_rejected_value y err :
    validateCredValue (Credential_Name y) (Credential_Type y)
      (Credential_Value y) = Err err ->
    cred_rejected existing (Ok y)
| cred_rejected_type_change y current :
    existing !! Credential_Name y = Some current ->
    Credential_Type y <> EmptyString ->
    current <> Credential_Type y ->
    cred_rejected existing (Ok y).

(** The same for exporters: no decode, a config that is not a mapping,
    that has a key that is not a string or that JSON cannot hold, or a
    type change. *)
Inductive exp_rejected (existing : gmap string string)
  : result Exporter -> Prop :=
| exp_rejected_decode err : exp_rejected existing (Err err)
| exp_rejected_not_map y :
    (forall m, Exporter_Config y <> Map m) ->
    exp_rejected existing (Ok y)
| exp_rejected_keys y m err :
    Exporter_Config y = Map m ->
    recurseMapStringKeys (Map m) = Err err ->
    exp_rejected existing (Ok y)
| exp_rejected_marshal y m convMap err :
    Exporter_Config y = Map m ->
    recurseMapStringKeys (Map m) = Ok convMap ->
    json_Marshal convMap = Err err ->
    exp_rejected existing (Ok y)
| exp_rejected_type_change y current :
    existing !! Exporter_Name y = Some current ->
    Exporter_Type y <> EmptyString ->
    current <> Exporter_Type y ->
    exp_rejected existing (Ok y).

(** The insert and update operations a record stands for. *)
Definition cred_insert (now : Timestamptz) (y : Credential) (value : Json)
  : CredentialInsertInput :=
  mkCredentialInsertInput (Credential_Name y) (Credential_Type y)
    value now now.


Definition exp_credential (y : Exporter) : option string :=
  if decide (Exporter_Credential y = EmptyString) then None
  else Some (Exporter_Credential y).

Definition exp_insert (now : Timestamptz) (y : Exporter) (config : Json)
  : ExporterInsertInput :=
  mkExporterInsertInput (Exporter_Name y) (Exporter_Type y)
    (exp_credential y) config now now.


(** The effect of the logged calls on the store, one after the other. *)
Definition replay_call (c : Call) (s : St) : St :=
  match c with
  | CredList tenant => snd (cred_List tenant s)
  | CredGet tenant name => snd (cred_Get tenant name s)
  | CredInsert tenant inserts => snd (cred_Insert tenant inserts s)
  | CredUpdate tenant update => snd (cred_Update tenant update s)
  | ExpList tenant => snd (exp_List tenant s)
  | ExpInsert tenant inserts => snd (exp_Insert tenant inserts s)
  | ExpUpdate tenant update => snd (exp_Update tenant update s)
  end.

Definition replay (cs : list Call) (s : St) : St :=
  fold_left (fun s c => replay_call c s) cs s.

End Handlers.

(** ** Specification-side notions for document trees *)

Definition is_str_key (k : scalar) : bool :=
  match k with SStr _ => true | _ => false end.

Definition key_string (k : scalar) : string :=
  match k with SStr s => s | _ => EmptyString end.

(** Some mapping of the tree has a key that is not a string. *)
Fixpoint has_nonstring_key (v : value) : bool :=
  match v with
  | Scalar _ => false
  | Seq l => existsb has_nonstring_key l
  | Map m =>
      existsb (fun kv => let '(k, x) := kv in
                         negb (is_str_key k) || has_nonstring_key x) m
  | StrMap m => existsb (fun kv => let '(_, x) := kv in has_nonstring_key x) m
  end.

(** A tree as yaml.v2 decodes it into [interface{}]: scalars, sequences
    and [map[interface{}]interface{}] only, no key twice in a map. *)
Fixpoint yaml_decoded (v : value) : bool :=
  match v with
  | Scalar _ => true
  | Seq l => forallb yaml_decoded l
  | Map m =>
      bool_decide (NoDup (map fst m))
      && forallb (fun kv => let '(_, x) := kv in yaml_decoded x) m
  | StrMap _ => false
  end.

(** The normalised tree in the spec's words: every mapping becomes a
    string-keyed mapping with the same pairs, values normalised; sequences
    keep their elements in order; scalars are unchanged. *)
Fixpoint normalized (v : value) : value :=
  match v with
  | Scalar c => Scalar c
  | Seq l => Seq (map normalized l)
  | Map m =>
      StrMap (map (fun kv => let '(k, x) := kv in (key_string k, normalized x)) m)
  | StrMap m => StrMap m
  end.

(** What a listing shows of the store once the secret values are blanked. *)
Definition redact (c : CredentialRow) : CredentialRow :=
  mkCredentialRow (cr_Name c) (cr_Type c) EmptyString
    (cr_CreatedAt c) (cr_UpdatedAt c).

Definition redact_list (r : result (list CredentialRow))
  : result (list CredentialRow) :=
  match r with Ok rows => Ok (map redact rows) | Err e => Err e end.

Definition redact_get (r : result (option CredentialRow))
  : result (option CredentialRow) :=
  match r with Ok row => Ok (option_map redact row) | Err e => Err e end.

Definition doc_keys (o : Output) : list string :=
  match o with Line _ => [] | YamlDoc fields => map fst fields end.


(** The two-field JSON object, given the JSON string literals of the key
    id and of the secret. *)
Definition aws_json (k_literal s_literal : string) : Json :=
  "{" +:+ quoted "AWS_ACCESS_KEY_ID" +:+ ":" +:+ k_literal
      +:+ "," +:+ quoted "AWS_SECRET_ACCESS_KEY" +:+ ":" +:+ s_literal +:+ "}".

(** [serial planned log failure]: [log] is what running the calls
    [planned] one after the other leaves behind when the run stops at the
    first call that comes back with an error ([failure]), or runs to the
    end ([None]). *)
Inductive serial
  : list Call -> list (Call * option string) -> option (Call * string) -> Prop :=
| serial_end : serial [] [] None
| serial_ok c planned log failure :
    serial planned log failure ->
    serial (c :: planned) ((c, None) :: log) failure
| serial_failed c planned err :
    serial (c :: planned) [(c, Some err)] (Some (c, err)).

(** The text a failed write is reported with (main.go, lines 250, 259,
    556 and 565). *)
Definition commit_failure (c : Call) (err : string) : string :=
  match c with
  | CredInsert _ inserts =>
      "Creating " +:+ pretty (length inserts)
        +:+ " credentials failed: " +:+ err
  | CredUpdate _ update =>
      "Updating credential " +:+ cu_Name update +:+ " failed: " +:+ err
  | ExpInsert _ inserts =>
      "Creating " +:+ pretty (length inserts)
        +:+ " exporters failed: " +:+ err
  | ExpUpdate _ update =>
      "Updating exporter " +:+ eu_Name update +:+ " failed: " +:+ err
  | _ => err
  end.

(** The response of the commit phase, by the failure of the run. *)
Definition commit_response (failure : option (Call * string)) : Response :=
  match failure with
  | None => no_content
  | Some (c, err) =>
      http_Error (commit_failure c err) StatusInternalServerError
  end.

(** The calls of a commit phase: the inserts as one bulk call (none when
    there is nothing to insert), then one call per update. *)
Definition cred_plan (tenant : string) (inserts : list CredentialInsertInput)
    (updates : list UpdateCredentialVariables) : list Call :=
  (if decide (inserts = []) then [] else [CredInsert tenant inserts])
    ++ map (CredUpdate tenant) updates.

Definition exp_plan (tenant : string) (inserts : list ExporterInsertInput)
    (updates : list UpdateExporterVariables) : list Call :=
  (if decide (inserts = []) then [] else [ExpInsert tenant inserts])
    ++ map (ExpUpdate tenant) updates.

(** ** A test double: an in-memory store and a small JSON codec

    Used to run the handlers on concrete requests. *)
Module Fixture.

Definition json_String : string -> string := quoted.

Definition sample_json : string := "{" +:+ quoted "a" +:+ ":1}".

Definition json_Valid (s : string) : bool := bool_decide (s = sample_json).

Definition json_Marshal (v : value) : result Json :=
  match v with
  | StrMap [] => Ok "{}"
  | _ => Err "json: unsupported value"
  end.

(** Rows of both kinds, and the names whose update the store refuses. *)
Record Store : Type := mkStore {
  credentials : list CredentialRow;
  exporters : list ExporterRow;
  locked : list string
}.

Definition empty : Store := mkStore [] [] [].

#[global] Instance credentialClient : CredentialAccess Store := {|
  cred_List _ s := (Ok (credentials s), s);
  cred_Get _ name s :=
    (Ok (find (fun c => bool_decide (cr_Name c = name)) (credentials s)), s);
  cred_Insert _ inserts s :=
    (None,
     mkStore (credentials s
                ++ map (fun i => mkCredentialRow (ci_Name i) (ci_Type i)
                                   (ci_Value i) (ci_CreatedAt i)
                                   (ci_UpdatedAt i)) inserts)
       (exporters s) (locked s));
  cred_Update _ update s :=
    if bool_decide (cu_Name update ∈ locked s) then (Some "locked", s)
    else
      (None,
       mkStore (map (fun c =>
                       if bool_decide (cr_Name c = cu_Name update)
                       then mkCredentialRow (cr_Name c) (cr_Type c)
                              (cu_Value update) (cr_CreatedAt c)
                              (cu_UpdatedAt update)
                       else c) (credentials s))
         (exporters s) (locked s))
|}.

#[global] Instance exporterClient : ExporterAccess Store := {|
  exp_List _ s := (Ok (exporters s), s);
  exp_Insert _ inserts s :=
    (None,
     mkStore (credentials s)
       (exporters s
          ++ map (fun i => mkExporterRow (ei_Name i) (ei_Type i)) inserts)
       (locked s));
  exp_Update _ update s :=
    if bool_decide (eu_Name update ∈ locked s) then (Some "locked", s)
    else (None, s)
|}.

Definition request {R} (body : list (result R)) : Request R :=
  mkRequest "/api/v1" (Some ["tenant1"]) "c1" body.

Definition world (s : Store) : World Store := mkWorld s [].

Definition aws_value (k s : string) : value :=
  Map [(SStr "AWS_ACCESS_KEY_ID", VStr k);
       (SStr "AWS_SECRET_ACCESS_KEY", VStr s)].

Definition now : Timestamptz := "2021-03-01T10:00:00Z".

Definition cred_aws : Credential :=
  mkCredential "c1" "aws-key" (aws_value "A" "B").

Definition cred_gcp : Credential :=
  mkCredential "c2" "gcp-service-account" (VStr sample_json).

Definition cred_c1_again : Credential :=
  mkCredential "c1" "aws-key" (aws_value "A2" "B2").

Definition cred_c1_as_gcp : Credential :=
  mkCredential "c1" "gcp-service-account" (VStr sample_json).

Definition cred_new : Credential :=
  mkCredential "c3" "gcp-service-account" (VStr sample_json).

Definition exp_untyped : Exporter :=
  mkExporter "e1" EmptyString EmptyString (Map []).

Definition exp_cloudwatch : Exporter :=
  mkExporter "e2" "cloudwatch" "c1" (Map []).

Definition exp_e2_as_stackdriver : Exporter :=
  mkExporter "e2" "stackdriver" EmptyString (Map []).

Definition exp_scalar_config : Exporter :=
  mkExporter "e3" "cloudwatch" EmptyString (VStr "region: us-west-2").

Definition row_c1 (secret : Json) : CredentialRow :=
  mkCredentialRow "c1" "aws-key" secret "2021-01-01T00:00:00Z"
    "2021-01-01T00:00:00Z".

Definition row_c2 : CredentialRow :=
  mkCredentialRow "c2" "gcp-service-account" sample_json
    "2021-01-02T00:00:00Z" "2021-01-02T00:00:00Z".

(** A store holding c1 and c2 and e2, where updates of c1 are refused. *)
Definition stocked (secret : Json) : Store :=
  mkStore [row_c1 secret; row_c2] [mkExporterRow "e2" "cloudwatch"] ["c1"].

Definition nested_tree : value :=
  Map [(SStr "region", VStr "us-west-2");
       (SStr "metrics",
        Seq [Map [(SStr "name", VStr "cpu"); (SStr "period", Scalar (SInt 60))];
             Scalar (SBool true)])].


Definition bad_key_tree : value :=
  Map [(SStr "metrics", Seq [Map [(SInt 1, VStr "one")]])].

End Fixture.

(** ** The remaining handlers of main.go *)

(** [m[k]] with the comma-ok form, on [map[string]interface{}]. *)
Fixpoint strmap_get (k : string) (m : list (string * value)) : option value :=
  match m with
  | [] => None
  | (k', v) :: rest => if decide (k' = k) then Some v else strmap_get k rest
  end.

(** Modelled from the spec: the row type of [ListExportersResponse] and
    [GetExporterResponse] is declared in go/pkg/graphql, outside this
    source; these are the fields listExporters and getExporter read. *)
Record ExporterFullRow : Type := mkExporterFullRow {
  ef_Name : string;
  ef_Type : string;
  ef_Credential : string;
  ef_Config : Json;
  ef_CreatedAt : string;
  ef_UpdatedAt : string
}.

(** ExporterInfo (main.go, lines 378-386); [Config] is an [interface{}],
    [None] being nil. *)
Record ExporterInfo : Type := mkExporterInfo {
  ExporterInfo_Name : string;
  ExporterInfo_Type : string;
  ExporterInfo_Credential : string;
  ExporterInfo_Config : option value;
  ExporterInfo_CreatedAt : string;
  ExporterInfo_UpdatedAt : string
}.

(** What an exporter read handler writes: the text line of an
    [http.Error], or one struct handed to [encoder.Encode]. *)
Inductive ExporterOutput : Type :=
| ExporterLine (msg : string)
| ExporterDoc (info : ExporterInfo).

Record ExporterResponse : Type :=
  mkExporterResponse { exporter_status : nat; exporter_body : list ExporterOutput }.

Definition exporter_Error (msg : string) (code : nat) : ExporterResponse :=
  mkExporterResponse code [ExporterLine msg].

(** The Delete method of the credential client; it answers with the name
    of the deleted row, or with nil when there was none. *)
Class CredentialDelete (St : Type) : Type := {
  cred_Delete : string -> string -> St -> result (option string) * St
}.

(** The methods of the exporter client the read and delete handlers use;
    [exp_Rows] is the List call with all the columns listExporters reads. *)
Class ExporterReads (St : Type) : Type := {
  exp_Rows : string -> St -> result (list ExporterFullRow) * St;
  exp_Get : string -> string -> St -> result (option ExporterFullRow) * St;
  exp_Delete : string -> string -> St -> result (option string) * St
}.

Section ReadAndDeleteHandlers.

(** [json.Unmarshal] into a fresh [map[string]interface{}], taken as
    given: the contents of the map after the call, and the error. *)
Variable json_Unmarshal : string -> list (string * value) * option string.

Context {St : Type} `{!CredentialDelete St} `{!ExporterReads St}.

(** deleteCredential (main.go, lines 352-376). *)
Definition deleteCredential {R} (r : Request R) (s : St) : Response * St :=
  let name := req_Name r in
  match getTenant r with
  | Err err => (http_Error err StatusBadRequest, s)
  | Ok tenant =>
      let (resp, s') := cred_Delete tenant name s in
      match resp with
      | Err err =>
          (http_Error ("Deleting credential failed: " +:+ err)
             StatusInternalServerError, s')
      | Ok None =>
          (http_Error ("Credential not found: " +:+ tenant +:+ "/" +:+ name)
             StatusNotFound, s')
      | Ok (Some deleted) =>
          (mkResponse StatusOK
             [encode_CredentialInfo
                (mkCredentialInfo deleted EmptyString EmptyString EmptyString)],
           s')
      end
  end.

(** main.go, lines 407-413 and 629-638: the stored config as a document
    tree, or the raw string under the key json when it does not parse. *)
Definition exporterConfigJSON (config : Json) : list (string * value) :=
  let (configJSON, err) := json_Unmarshal config in
  match err with
  | Some _ => strmap_set "json" (VStr config) configJSON
  | None => configJSON
  end.

Definition exporterInfo (row : ExporterFullRow) : ExporterInfo :=
  mkExporterInfo (ef_Name row) (ef_Type row) (ef_Credential row)
    (Some (StrMap (exporterConfigJSON (ef_Config row))))
    (ef_CreatedAt row) (ef_UpdatedAt row).

(** listExporters (main.go, lines 388-423). *)
Definition listExporters {R} (r : Request R) (s : St) : ExporterResponse * St :=
  match getTenant r with
  | Err err => (exporter_Error err StatusBadRequest, s)
  | Ok tenant =>
      let (resp, s') := exp_Rows tenant s in
      match resp with
      | Err err =>
          (exporter_Error
             ("Listing exporters for tenant " +:+ tenant +:+ " failed: "
                +:+ err)
             StatusInternalServerError, s')
      | Ok rows =>
          (mkExporterResponse StatusOK
             (map (fun exporter => ExporterDoc (exporterInfo exporter)) rows),
           s')
      end
  end.

(** getExporter (main.go, lines 607-649). *)
Definition getExporter {R} (r : Request R) (s : St) : ExporterResponse * St :=
  let name := req_Name r in
  match getTenant r with
  | Err err => (exporter_Error err StatusBadRequest, s)
  | Ok tenant =>
      let (resp, s') := exp_Get tenant name s in
      match resp with
      | Err err =>
          (exporter_Error ("Getting exporter failed: " +:+ err)
             StatusInternalServerError, s')
      | Ok None =>
          (exporter_Error
             ("Exporter not found: " +:+ tenant +:+ "/" +:+ name)
             StatusNotFound, s')
      | Ok (Some row) =>
          (mkExporterResponse StatusOK [ExporterDoc (exporterInfo row)], s')
      end
  end.

(** deleteExporter (main.go, lines 651-675). *)
Definition deleteExporter {R} (r : Request R) (s : St) : ExporterResponse * St :=
  let name := req_Name r in
  match getTenant r with
  | Err err => (exporter_Error err StatusBadRequest, s)
  | Ok tenant =>
      let (resp, s') := exp_Delete tenant name s in
      match resp with
      | Err err =>
          (exporter_Error ("Deleting exporter failed: " +:+ err)
             StatusInternalServerError, s')
      | Ok None =>
          (exporter_Error
             ("Exporter not found: " +:+ tenant +:+ "/" +:+ name)
             StatusNotFound, s')
      | Ok (Some deleted) =>
          (mkExporterResponse StatusOK
             [ExporterDoc
                (mkExporterInfo deleted EmptyString EmptyString None
                   EmptyString EmptyString)],
           s')
      end
  end.

End ReadAndDeleteHandlers.

(** ** More specification-side notions *)

(** The text an empty batch is answered with (main.go, lines 240, 546). *)
Definition cred_missing : string :=
  "Missing credential YAML data in request body".

Definition exp_missing : string :=
  "Missing exporter YAML data in request body".

(** The tenant a client call is made for. *)
Definition call_tenant (c : Call) : string :=
  match c with
  | CredList tenant | CredGet tenant _ | CredInsert tenant _
  | CredUpdate tenant _ | ExpList tenant | ExpInsert tenant _
  | ExpUpdate tenant _ => tenant
  end.

Definition is_write (c : Call) : bool :=
  match c with
  | CredInsert _ _ | CredUpdate _ _ | ExpInsert _ _ | ExpUpdate _ _ => true
  | _ => false
  end.

(** Some [map[interface{}]interface{}] is left in the tree. *)
Fixpoint has_map (v : value) : bool :=
  match v with
  | Scalar _ => false
  | Seq l => existsb has_map l
  | Map _ => true
  | StrMap m => existsb (fun kv => let '(_, x) := kv in has_map x) m
  end.

Fixpoint has_strmap (v : value) : bool :=
  match v with
  | Scalar _ => false
  | Seq l => existsb has_strmap l
  | Map m => existsb (fun kv => let '(_, x) := kv in has_strmap x) m
  | StrMap _ => true
  end.

(** Some mapping that recurseMapStringKeys visits (it goes through
    sequences and the values of [map[interface{}]interface{}], and stops
    at anything else) has a key that is not a string. *)
Fixpoint visits_nonstring_key (v : value) : bool :=
  match v with
  | Seq l => existsb visits_nonstring_key l
  | Map m =>
      existsb (fun kv => let '(k, x) := kv in
                         negb (is_str_key k) || visits_nonstring_key x) m
  | _ => false
  end.

(** The type of the last listed row called [name], if any. *)
Fixpoint last_type (name : string) (rows : list (string * string))
  : option string :=
  match rows with
  | [] => None
  | (n, t) :: rest =>
      match last_type name rest with
      | Some t' => Some t'
      | None => if decide (n = name) then Some t else None
      end
  end.

(** A second test double: deletes and exporter reads on the rows of the
    store, and a JSON decoder that knows one document. *)
Module FixtureReads.

Definition json_Unmarshal (s : string) : list (string * value) * option string :=
  if decide (s = Fixture.sample_json) then ([("a", Scalar (SInt 1))], None)
  else ([], Some "invalid character").

Record Store : Type := mkStore {
  names : list string;
  rows : list ExporterFullRow
}.

#[global] Instance credentialDelete : CredentialDelete Store := {|
  cred_Delete _ name s :=
    if bool_decide (name ∈ names s)
    then (Ok (Some name),
          mkStore (filter (fun n => n <> name) (names s)) (rows s))
    else (Ok None, s)
|}.

#[global] Instance exporterReads : ExporterReads Store := {|
  exp_Rows _ s := (Ok (rows s), s);
  exp_Get _ name s :=
    (Ok (find (fun e => bool_decide (ef_Name e = name)) (rows s)), s);
  exp_Delete _ name s :=
    (Ok (option_map ef_Name
           (find (fun e => bool_decide (ef_Name e = name)) (rows s))),
     mkStore (names s)
       (filter (fun e => ef_Name e <> name) (rows s)))
|}.

Definition good_row : ExporterFullRow :=
  mkExporterFullRow "e1" "cloudwatch" "c1" Fixture.sample_json
    "2021-01-01T00:00:00Z" "2021-01-01T00:00:00Z".

Definition bad_row : ExporterFullRow :=
  mkExporterFullRow "e2" "stackdriver" EmptyString "{oops"
    "2021-01-02T00:00:00Z" "2021-01-02T00:00:00Z".

Definition store : Store := mkStore ["c1"; "c2"] [good_row; bad_row].

End FixtureReads.

(** ** Running calls on the store *)

Section StoreRuns.

Context {St : Type} `{!CredentialAccess St} `{!ExporterAccess St}.

(** What the store answers to a call: the error it returns ([None] is
    nil) and the store after the call. *)
Definition call_outcome (c : Call) (s : St) : option string * St :=
  match c with
  | CredList tenant =>
      let (r, s') := cred_List tenant s in (result_err r, s')
  | CredGet tenant name =>
      let (r, s') := cred_Get tenant name s in (result_err r, s')
  | CredInsert tenant inserts => cred_Insert tenant inserts s
  | CredUpdate tenant update => cred_Update tenant update s
  | ExpList tenant =>
      let (r, s') := exp_List tenant s in (result_err r, s')
  | ExpInsert tenant inserts => exp_Insert tenant inserts s
  | ExpUpdate tenant update => exp_Update tenant update s
  end.

(** The calls [planned] made on the store one after the other, up to and
    including the first one the store answers with an error: the log of
    the calls made with the store's answers, the failure if there was one,
    and the store at the end. *)
Fixpoint run_plan (planned : list Call) (s : St)
  : list (Call * option string) * option (Call * string) * St :=
  match planned with
  | [] => ([], None, s)
  | c :: rest =>
      match call_outcome c s with
      | (Some err, s') => ([(c, Some err)], Some (c, err), s')
      | (None, s') =>
          let '(log, failure, s'') := run_plan rest s' in
          ((c, None) :: log, failure, s'')
      end
  end.

(** Every entry of [log] holds what the store, started at [s] and taking
    the logged calls in order, answered to its call. *)
Fixpoint answered_by (s : St) (log : list (Call * option string)) : Prop :=
  match log with
  | [] => True
  | (c, err) :: rest =>
      fst (call_outcome c s) = err
      /\ answered_by (snd (call_outcome c s)) rest
  end.

End StoreRuns.

(** * Proofs *)

(** Structural induction on trees, with the hypothesis on every child. *)
Lemma value_ind' (P : value -> Prop)
    (Hscalar : forall c, P (Scalar c))
    (Hseq : forall l, Forall P l -> P (Seq l))
    (Hmap : forall m, Forall (fun kv => P (snd kv)) m -> P (Map m))
    (Hstr : forall m, Forall (fun kv => P (snd kv)) m -> P (StrMap m)) :
  forall v, P v.
Proof.
  fix IH 1. intros [c | l | m | m].
  - apply Hscalar.
  - apply Hseq. induction l as [| y l IHl]; constructor; [apply IH | exact IHl].
  - apply Hmap. induction m as [| [k y] m IHm]; constructor;
      [apply IH | exact IHm].
  - apply Hstr. induction m as [| [k y] m IHm]; constructor;
      [apply IH | exact IHm].
Qed.

Lemma strmap_set_fresh k v m :
  k ∉ map fst m -> strmap_set k v m = m ++ [(k, v)].
Proof.
  induction m as [| [k' v'] m IHm]; simpl; intros Hk; [reflexivity |].
  apply not_elem_of_cons in Hk as [Hne Hk].
  destruct (decide (k' = k)) as [-> | _]; [contradiction |].
  now rewrite IHm.
Qed.

Section RangeLemmas.

Variable rec : value -> result value.

Lemma rangeSeq_ok vs : forall visited,
  Forall (fun x => rec x = Ok (normalized x)) vs ->
  rangeSeq rec (length visited) vs (visited ++ vs)
  = Ok (Seq (visited ++ map normalized vs)).
Proof.
  induction vs as [| x vs IHvs]; simpl; intros visited Hall.
  - reflexivity.
  - inversion Hall as [| ? ? Hx Hvs]; subst. rewrite Hx.
    replace (length visited) with (length visited + 0)%nat at 2 by lia.
    rewrite insert_app_r. simpl.
    specialize (IHvs (visited ++ [normalized x]) Hvs).
    rewrite length_app, <- !app_assoc in IHvs. simpl in IHvs.
    now rewrite Nat.add_1_r in IHvs.
Qed.

Lemma rangeSeq_err vs : forall i inType,
  Forall (fun x => rec x = Ok (normalized x)
                   \/ rec x = Err keys_must_be_strings) vs ->
  Exists (fun x => rec x = Err keys_must_be_strings) vs ->
  rangeSeq rec i vs inType = Err keys_must_be_strings.
Proof.
  induction vs as [| x vs IHvs]; simpl; intros i inType Hall Hex.
  - inversion Hex.
  - inversion Hall as [| ? ? Hx Hvs]; subst.
    destruct Hx as [Hx | Hx]; rewrite Hx; [| reflexivity].
    inversion Hex as [? ? Hbad | ? ? Hbad]; subst; [congruence |].
    now apply IHvs.
Qed.

Lemma rangeMap_ok kvs : forall strMap,
  Forall (fun kv => is_str_key (fst kv) = true
                    /\ rec (snd kv) = Ok (normalized (snd kv))) kvs ->
  NoDup (map fst kvs) ->
  (forall s, SStr s ∈ map fst kvs -> s ∉ map fst strMap) ->
  rangeMap rec kvs strMap
  = Ok (StrMap (strMap ++
                map (fun kv => let '(k, x) := kv in
                               (key_string k, normalized x)) kvs)).
Proof.
  induction kvs as [| [k x] kvs IHkvs]; simpl; intros strMap Hall Hnd Hfresh.
  - now rewrite app_nil_r.
  - inversion Hall as [| ? ? [Hk Hx] Hkvs]; subst. simpl in Hk, Hx.
    apply NoDup_cons in Hnd as [Hnotin Hnd].
    destruct k as [| | | | s]; try discriminate. rewrite Hx.
    rewrite strmap_set_fresh by (apply Hfresh; left).
    rewrite (IHkvs _ Hkvs Hnd).
    + simpl. now rewrite <- app_assoc.
    + intros s' Hs'. rewrite map_app. simpl.
      intros Hin. apply elem_of_app in Hin as [Hin | Hin].
      * revert Hin. apply Hfresh. now right.
      * apply list_elem_of_singleton in Hin. subst s'. contradiction.
Qed.

Lemma rangeMap_err kvs : forall strMap,
  Forall (fun kv => rec (snd kv) = Ok (normalized (snd kv))
                    \/ rec (snd kv) = Err keys_must_be_strings) kvs ->
  Exists (fun kv => is_str_key (fst kv) = false
                    \/ rec (snd kv) = Err keys_must_be_strings) kvs ->
  rangeMap rec kvs strMap = Err keys_must_be_strings.
Proof.
  induction kvs as [| [k x] kvs IHkvs]; simpl; intros strMap Hall Hex.
  - inversion Hex.
  - inversion Hall as [| ? ? Hx Hkvs]; subst. simpl in Hx.
    destruct k as [| | | | s]; try reflexivity.
    destruct Hx as [Hx | Hx]; rewrite Hx; [| reflexivity].
    inversion Hex as [? ? Hbad | ? ? Hbad]; subst.
    + simpl in Hbad. destruct Hbad; congruence.
    + now apply IHkvs.
Qed.

End RangeLemmas.

Lemma recurseMapStringKeys_cases v :
  yaml_decoded v = true ->
  recurseMapStringKeys v
  = if has_nonstring_key v then Err keys_must_be_strings
    else Ok (normalized v).
Proof.
  induction v as [c | l IH | m IH | m IH] using value_ind'; intros Hdec.
  - reflexivity.
  - simpl in Hdec. rewrite forallb_forall in Hdec.
    assert (Hall : Forall (fun x => recurseMapStringKeys x
                     = if has_nonstring_key x then Err keys_must_be_strings
                       else Ok (normalized x)) l).
    { rewrite Forall_forall in *. intros x Hx.
      apply IH; [exact Hx | apply Hdec; now apply list_elem_of_In]. }
    clear IH Hdec. change (recurseMapStringKeys (Seq l))
      with (rangeSeq recurseMapStringKeys 0 l l).
    simpl has_nonstring_key. destruct (existsb has_nonstring_key l) eqn:Hex.
    + apply rangeSeq_err.
      * eapply Forall_impl; [exact Hall |]. intros x Hx. simpl in Hx.
        destruct (has_nonstring_key x); auto.
      * apply existsb_exists in Hex as (x & Hx & Hbad).
        apply Exists_exists. exists x. split; [now apply list_elem_of_In |].
        rewrite Forall_forall in Hall.
        rewrite (Hall x) by (now apply list_elem_of_In). now rewrite Hbad.
    + apply (rangeSeq_ok recurseMapStringKeys l []).
      rewrite Forall_forall in *. intros x Hx. rewrite (Hall x Hx).
      destruct (has_nonstring_key x) eqn:Hbad; [| reflexivity].
      assert (existsb has_nonstring_key l = true); [| congruence].
      apply existsb_exists. exists x. split; [now apply list_elem_of_In | done].
  - simpl in Hdec. apply andb_true_iff in Hdec as [Hnd Hdec].
    apply bool_decide_eq_true in Hnd. rewrite forallb_forall in Hdec.
    assert (Hall : Forall (fun kv => recurseMapStringKeys (snd kv)
                     = if has_nonstring_key (snd kv)
                       then Err keys_must_be_strings
                       else Ok (normalized (snd kv))) m).
    { rewrite Forall_forall in *. intros [k x] Hx.
      apply IH; [exact Hx |]. apply list_elem_of_In in Hx.
      exact (Hdec _ Hx). }
    clear IH Hdec. change (recurseMapStringKeys (Map m))
      with (rangeMap recurseMapStringKeys m []).
    simpl has_nonstring_key.
    destruct (existsb _ m) eqn:Hex.
    + apply rangeMap_err.
      * eapply Forall_impl; [exact Hall |]. intros [k x] Hx. simpl in *.
        destruct (has_nonstring_key x); auto.
      * apply existsb_exists in Hex as ([k x] & Hx & Hbad).
        apply Exists_exists. exists (k, x).
        split; [now apply list_elem_of_In |]. simpl.
        apply orb_true_iff in Hbad as [Hbad | Hbad].
        -- left. now apply negb_true_iff.
        -- right. rewrite Forall_forall in Hall.
           pose proof (Hall (k, x)) as Hkx. simpl in Hkx.
           rewrite Hkx by (now apply list_elem_of_In). now rewrite Hbad.
    + rewrite rangeMap_ok; [reflexivity | | exact Hnd |].
      * rewrite Forall_forall in *. intros [k x] Hx.
        pose proof (Hall _ Hx) as Hkx. simpl in *. rewrite Hkx.
        destruct (negb (is_str_key k) || has_nonstring_key x) eqn:Hbad.
        -- assert (existsb (fun kv => let '(k, x) := kv in
                     negb (is_str_key k) || has_nonstring_key x) m = true);
             [| congruence].
           apply existsb_exists. exists (k, x).
           split; [now apply list_elem_of_In | done].
        -- apply orb_false_iff in Hbad as [Hk Hbad]. rewrite Hbad.
           apply negb_false_iff in Hk. done.
      * intros s _. simpl. apply not_elem_of_nil.
  - discriminate.
Qed.

(** C6: on a decoded YAML tree, recurseMapStringKeys fails with the
    keys-must-be-strings error whenever some mapping of the tree, at any
    depth, has a key that is not a string; otherwise it succeeds and
    returns the structurally identical tree: every mapping string-keyed
    with the same pairs (values normalised), every sequence with its
    elements in order, every scalar unchanged. *)
Theorem recurseMapStringKeys_normalizes (v : value) :
  yaml_decoded v = true ->
  (has_nonstring_key v = true ->
   recurseMapStringKeys v = Err keys_must_be_strings)
  /\ (has_nonstring_key v = false ->
      recurseMapStringKeys v = Ok (normalized v)).
Proof.
  intros Hdec. rewrite (recurseMapStringKeys_cases v Hdec).
  split; intros ->; reflexivity.
Qed.

Lemma recurseMapStringKeys_normalizes_witness :
  recurseMapStringKeys Fixture.bad_key_tree = Err keys_must_be_strings
  /\ recurseMapStringKeys Fixture.nested_tree
     = Ok (normalized Fixture.nested_tree).
Proof.
  split.
  - apply (recurseMapStringKeys_normalizes Fixture.bad_key_tree);
      vm_compute; reflexivity.
  - apply (recurseMapStringKeys_normalizes Fixture.nested_tree);
      vm_compute; reflexivity.
Defined.

Section ValidatorProofs.

Variable json_String : string -> string.
Variable json_Valid : string -> bool.

Local Abbreviation validate := (validateCredValue json_String json_Valid).






Lemma validate_gcp_cases name v :
  validate name "gcp-service-account" v
  = match v with
    | Scalar (SStr s) =>
        if json_Valid s then Ok s
        else Err (not_valid_json "gcp-service-account" name)
    | _ => Err (not_json_string "gcp-service-account" name)
    end.
Proof.
  unfold validateCredValue. simpl.
  destruct v as [[| | | | s] | | |]; try reflexivity.
  now destruct (json_Valid s).
Qed.

(** C5: for the type gcp-service-account, validateCredValue succeeds
    exactly on a string that is valid JSON and returns that string
    unchanged; a string that is not valid JSON and a value that is not a
    string get their shape errors; and every type other than aws-key and
    gcp-service-account is rejected as unsupported, whatever the value. *)
Theorem validateCredValue_gcp_and_unsupported (name : string) (v : value) :
  (forall j, validate name "gcp-service-account" v = Ok j <->
             exists s, v = VStr s /\ json_Valid s = true /\ j = s)
  /\ (forall s, v = VStr s -> json_Valid s = false ->
      validate name "gcp-service-account" v
      = Err (not_valid_json "gcp-service-account" name))
  /\ ((forall s, v <> VStr s) ->
      validate name "gcp-service-account" v
      = Err (not_json_string "gcp-service-account" name))
  /\ (forall credType,
        credType <> "aws-key" -> credType <> "gcp-service-account" ->
        validate name credType v = Err (unsupported_type credType)).
Proof.
  repeat split.
  - rewrite validate_gcp_cases.
    destruct v as [[| | | | s] | | |]; try discriminate.
    destruct (json_Valid s) eqn:Hs; [| discriminate].
    intros [= <-]. now exists s.
  - intros (s & -> & Hs & ->). rewrite validate_gcp_cases. simpl.
    now rewrite Hs.
  - intros s -> Hs. rewrite validate_gcp_cases. simpl. now rewrite Hs.
  - intros Hns. rewrite validate_gcp_cases.
    destruct v as [[| | | | s] | | |]; try reflexivity.
    now destruct (Hns s).
  - intros credType Haws Hgcp. unfold validateCredValue.
    destruct (decide (credType = "aws-key")); [contradiction |].
    destruct (decide (credType = "gcp-service-account")); [contradiction |].
    reflexivity.
Qed.

End ValidatorProofs.


Lemma validateCredValue_gcp_and_unsupported_witness :
  validateCredValue Fixture.json_String Fixture.json_Valid
    "c2" "gcp-service-account" (VStr Fixture.sample_json)
  = Ok Fixture.sample_json
  /\ validateCredValue Fixture.json_String Fixture.json_Valid
       "c2" "gcp-service-account" (VStr "{not valid json")
     = Err (not_valid_json "gcp-service-account" "c2")
  /\ validateCredValue Fixture.json_String Fixture.json_Valid
       "c2" "azure-key" (VStr Fixture.sample_json)
     = Err (unsupported_type "azure-key").
Proof.
  pose proof (validateCredValue_gcp_and_unsupported Fixture.json_String
                Fixture.json_Valid "c2") as H.
  split; [| split].
  - apply (proj1 (H (VStr Fixture.sample_json))).
    exists Fixture.sample_json. repeat split; reflexivity.
  - apply (proj1 (proj2 (H (VStr "{not valid json"))) "{not valid json");
      reflexivity.
  - apply (proj2 (proj2 (proj2 (H (VStr Fixture.sample_json)))));
      discriminate.
Defined.

Lemma type_change_true (current ty : string) :
  negb (bool_decide (ty = EmptyString)) && negb (bool_decide (current = ty))
  = true
  <-> ty <> EmptyString /\ current <> ty.
Proof.
  rewrite andb_true_iff, !negb_true_iff, !bool_decide_eq_false. tauto.
Qed.

Lemma type_change_false (current ty : string) :
  negb (bool_decide (ty = EmptyString)) && negb (bool_decide (current = ty))
  = false
  <-> ty = EmptyString \/ current = ty.
Proof.
  rewrite andb_false_iff, !negb_false_iff, !bool_decide_eq_true. tauto.
Qed.

(** *** What a serial run says about its log *)

Lemma serial_prefix planned log failure :
  serial planned log failure -> map fst log `prefix_of` planned.
Proof.
  induction 1 as [| c planned log failure _ IH | c planned err]; simpl.
  - done.
  - now apply prefix_cons.
  - now exists planned.
Qed.

Lemma serial_complete planned log :
  serial planned log None -> log = map (fun c => (c, None)) planned.
Proof.
  intros H. remember None as failure eqn:Hf.
  induction H as [| c planned log failure _ IH | c planned err];
    [reflexivity | | discriminate].
  simpl. now rewrite (IH Hf).
Qed.

Lemma serial_stops planned log c err :
  serial planned log (Some (c, err)) ->
  exists before,
    log = map (fun c => (c, None)) before ++ [(c, Some err)]
    /\ (before ++ [c]) `prefix_of` planned.
Proof.
  intros H. remember (Some (c, err)) as failure eqn:Hf.
  induction H as [| c' planned log failure _ IH | c' planned err'];
    [discriminate | |].
  - destruct (IH Hf) as (before & -> & Hpre).
    exists (c' :: before). split; [reflexivity |]. simpl. now apply prefix_cons.
  - injection Hf as -> ->. exists []. split; [reflexivity |]. now exists planned.
Qed.

Lemma serial_single c log failure :
  serial [c] log failure -> map fst log = [c].
Proof.
  inversion 1 as [| ? ? log' ? Hrest | ]; subst; [| reflexivity].
  now inversion Hrest.
Qed.

Section HandlerProofs.

Variable json_String : string -> string.
Variable json_Valid : string -> bool.
Variable json_Marshal : value -> result Json.
Context {St : Type} `{!CredentialAccess St} `{!ExporterAccess St}.

Local Abbreviation validate := (validateCredValue json_String json_Valid).
Local Abbreviation credLoop' := (credLoop json_String json_Valid).
Local Abbreviation expLoop' := (expLoop json_Marshal).
Local Abbreviation exporterConfig' := (exporterConfig json_Marshal).
Local Abbreviation cred_rejected' := (cred_rejected json_String json_Valid).
Local Abbreviation exp_rejected' := (exp_rejected json_Marshal).
Local Abbreviation writeCredentials' :=
  (writeCredentials json_String json_Valid (St := St)).
Local Abbreviation writeExporters' :=
  (writeExporters json_Marshal (St := St)).

(** *** One turn of each loop *)

Lemma credLoop_insert existing now y value rest inserts updates :
  validate (Credential_Name y) (Credential_Type y) (Credential_Value y)
  = Ok value ->
  existing !! Credential_Name y = None ->
  credLoop' existing now (Ok y :: rest) inserts updates
  = credLoop' existing now rest (inserts ++ [cred_insert now y value]) updates.
Proof. intros Hv Hex. simpl. now rewrite Hv, Hex. Qed.



Lemma expLoop_insert existing now y config rest inserts updates :
  exporterConfig' y = Next config ->
  existing !! Exporter_Name y = None ->
  expLoop' existing now (Ok y :: rest) inserts updates
  = expLoop' existing now rest (inserts ++ [exp_insert now y config]) updates.
Proof. intros Hv Hex. simpl. now rewrite Hv, Hex. Qed.



(** *** A rejected record makes the loop return a 400 *)

Lemma credLoop_rejected existing now decoder :
  Exists (cred_rejected' existing) decoder ->
  forall inserts updates,
  exists resp, credLoop' existing now decoder inserts updates = Return resp
               /\ status resp = StatusBadRequest.
Proof.
  induction decoder as [| d rest IH]; intros Hex inserts updates.
  - inversion Hex.
  - destruct d as [y | err]; [| eexists; split; reflexivity].
    simpl.
    destruct (validate _ _ _) as [value |] eqn:Hv;
      [| eexists; split; reflexivity].
    destruct (existing !! Credential_Name y) as [current |] eqn:Hlk.
    + destruct (negb _ && negb _) eqn:Hch; [eexists; split; reflexivity |].
      apply IH. inversion Hex as [? ? Hrej | ? ? Hrest]; subst; [| exact Hrest].
      inversion Hrej as [| ? ? Hv' | ? current' Hlk' Hne Hdiff]; subst.
      * congruence.
      * assert (current' = current) as -> by congruence.
        apply type_change_false in Hch. tauto.
    + apply IH. inversion Hex as [? ? Hrej | ? ? Hrest]; subst; [| exact Hrest].
      inversion Hrej; subst; congruence.
Qed.

Lemma exporterConfig_inv y config :
  exporterConfig' y = Next config ->
  exists m convMap,
    Exporter_Config y = Map m
    /\ recurseMapStringKeys (Map m) = Ok convMap
    /\ json_Marshal convMap = Ok config.
Proof.
  unfold exporterConfig.
  destruct (Exporter_Config y) as [c | l | m | m]; try discriminate.
  destruct (recurseMapStringKeys (Map m)) as [convMap |] eqn:Hrec;
    [| discriminate].
  destruct (json_Marshal convMap) as [json |] eqn:Hj; [| discriminate].
  intros [= <-]. now exists m, convMap.
Qed.

Lemma exporterConfig_return y :
  is_Some (match exporterConfig' y with Next _ => None | Return r => Some r end)
  -> exists resp, exporterConfig' y = Return resp
                  /\ status resp = StatusBadRequest.
Proof.
  unfold exporterConfig.
  destruct (Exporter_Config y) as [c | l | m | m];
    try (intros _; eexists; split; reflexivity).
  destruct (recurseMapStringKeys (Map m)) as [convMap |];
    [| intros _; eexists; split; reflexivity].
  destruct (json_Marshal convMap) as [json |];
    [| intros _; eexists; split; reflexivity].
  intros [? [=]].
Qed.

Lemma expLoop_rejected existing now decoder :
  Exists (exp_rejected' existing) decoder ->
  forall inserts updates,
  exists resp, expLoop' existing now decoder inserts updates = Return resp
               /\ status resp = StatusBadRequest.
Proof.
  induction decoder as [| d rest IH]; intros Hex inserts updates.
  - inversion Hex.
  - destruct d as [y | err]; [| eexists; split; reflexivity].
    simpl.
    destruct (exporterConfig' y) as [config | r] eqn:Hv.
    2:{ destruct (exporterConfig_return y) as (resp & Hr & Hst).
        - rewrite Hv. now eexists.
        - exists resp. split; [congruence | exact Hst]. }
    apply exporterConfig_inv in Hv as (m & convMap & Hm & Hrec & Hj).
    assert (Hhead : exp_rejected' existing (Ok y) ->
                    exists current, existing !! Exporter_Name y = Some current
                                    /\ Exporter_Type y <> EmptyString
                                    /\ current <> Exporter_Type y).
    { intros Hrej.
      inversion Hrej as [| ? Hnm | ? ? ? Hm' Hrec' | ? ? ? ? Hm' Hrec' Hj'
                         | ? current Hlk Hne Hdiff]; subst.
      - now destruct (Hnm m).
      - congruence.
      - assert (m0 = m) as -> by congruence. congruence.
      - now exists current. }
    destruct (existing !! Exporter_Name y) as [current |] eqn:Hlk.
    + destruct (negb _ && negb _) eqn:Hch; [eexists; split; reflexivity |].
      apply IH. inversion Hex as [? ? Hrej | ? ? Hrest]; subst; [| exact Hrest].
      destruct (Hhead Hrej) as (current' & [= <-] & Hne & Hdiff).
      apply type_change_false in Hch. tauto.
    + apply IH. inversion Hex as [? ? Hrej | ? ? Hrest]; subst; [| exact Hrest].
      destruct (Hhead Hrej) as (current' & [=] & _).
Qed.

(** C1: when a record of a write batch does not decode or fails its
    validation (credential value shape, unsupported credential type,
    exporter config that is not a map or cannot be encoded, type change),
    the handler answers 400 and the only call it has made on the store is
    the initial listing: no insert and no update is submitted.  Holds for
    writeCredentials and for writeExporters. *)
Theorem rejected_batch_submits_no_write :
  (forall (r : Request Credential) (now : Timestamptz) (w : World St)
          tenant rows s,
      getTenant r = Ok tenant ->
      cred_List tenant (store w) = (Ok rows, s) ->
      Exists (cred_rejected' (credExistingTypes rows)) (req_Body r) ->
      exists resp,
        writeCredentials' r now w
        = (resp, mkWorld s (calls w ++ [(CredList tenant, None)]))
        /\ status resp = StatusBadRequest)
  /\ (forall (r : Request Exporter) (now : Timestamptz) (w : World St)
             tenant rows s,
      getTenant r = Ok tenant ->
      exp_List tenant (store w) = (Ok rows, s) ->
      Exists (exp_rejected' (expExistingTypes rows)) (req_Body r) ->
      exists resp,
        writeExporters' r now w
        = (resp, mkWorld s (calls w ++ [(ExpList tenant, None)]))
        /\ status resp = StatusBadRequest).
Proof.
  split; intros r now w tenant rows s Hten Hlist Hex.
  - destruct (credLoop_rejected _ now _ Hex [] []) as (resp & Hloop & Hst).
    exists resp. split; [| exact Hst].
    unfold writeCredentials, bind, invoke. rewrite Hten, Hlist. simpl.
    now rewrite Hloop.
  - destruct (expLoop_rejected _ now _ Hex [] []) as (resp & Hloop & Hst).
    exists resp. split; [| exact Hst].
    unfold writeExporters, bind, invoke. rewrite Hten, Hlist. simpl.
    now rewrite Hloop.
Qed.

(** *** The loops on a body split in two *)



(** *** Which records become inserts and which updates *)

Lemma credLoop_names existing now ys : forall inserts updates inserts' updates',
  credLoop' existing now (map Ok ys) inserts updates
  = Next (inserts', updates') ->
  map ci_Name inserts'
  = map ci_Name inserts
      ++ filter (fun n => existing !! n = None) (map Credential_Name ys)
  /\ map cu_Name updates'
     = map cu_Name updates
         ++ filter (fun n => is_Some (existing !! n))
              (map Credential_Name ys).
Proof.
  induction ys as [| y ys IH]; intros inserts updates inserts' updates'.
  - simpl. intros [= <- <-]. now rewrite !app_nil_r.
  - simpl. destruct (validate _ _ _) as [value |]; [| discriminate].
    destruct (existing !! Credential_Name y) as [current |] eqn:Hlk.
    + destruct (negb _ && negb _); [discriminate |].
      intros Hloop. apply IH in Hloop as [-> ->].
      rewrite !filter_cons, Hlk.
      rewrite (decide_False (P := _ = None)) by discriminate.
      rewrite (decide_True (P := is_Some _)) by (now eexists).
      rewrite map_app, <- app_assoc. done.
    + intros Hloop. apply IH in Hloop as [-> ->].
      rewrite !filter_cons, Hlk.
      rewrite (decide_True (P := _ = None)) by reflexivity.
      rewrite (decide_False (P := is_Some _)) by (intros [? [=]]).
      rewrite map_app, <- app_assoc. done.
Qed.

Lemma expLoop_names existing now ys : forall inserts updates inserts' updates',
  expLoop' existing now (map Ok ys) inserts updates
  = Next (inserts', updates') ->
  map ei_Name inserts'
  = map ei_Name inserts
      ++ filter (fun n => existing !! n = None) (map Exporter_Name ys)
  /\ map eu_Name updates'
     = map eu_Name updates
         ++ filter (fun n => is_Some (existing !! n))
              (map Exporter_Name ys).
Proof.
  induction ys as [| y ys IH]; intros inserts updates inserts' updates'.
  - simpl. intros [= <- <-]. now rewrite !app_nil_r.
  - simpl. destruct (exporterConfig' y) as [config |]; [| discriminate].
    destruct (existing !! Exporter_Name y) as [current |] eqn:Hlk.
    + destruct (negb (bool_decide (Exporter_Type y = EmptyString)) && _);
        [discriminate |].
      intros Hloop. apply IH in Hloop as [-> ->].
      rewrite !filter_cons, Hlk.
      rewrite (decide_False (P := _ = None)) by discriminate.
      rewrite (decide_True (P := is_Some _)) by (now eexists).
      rewrite map_app, <- app_assoc. done.
    + intros Hloop. apply IH in Hloop as [-> ->].
      rewrite !filter_cons, Hlk.
      rewrite (decide_True (P := _ = None)) by reflexivity.
      rewrite (decide_False (P := is_Some _)) by (intros [? [=]]).
      rewrite map_app, <- app_assoc. done.
Qed.

(** *** Batches of valid records with new names *)

Lemma credLoop_all_new existing now ys : forall values inserts updates,
  Forall2 (fun y value =>
             validate (Credential_Name y) (Credential_Type y)
               (Credential_Value y) = Ok value) ys values ->
  Forall (fun y => existing !! Credential_Name y = None) ys ->
  credLoop' existing now (map Ok ys) inserts updates
  = Next (inserts ++ zip_with (cred_insert now) ys values, updates).
Proof.
  induction ys as [| y ys IH]; intros values inserts updates Hval Hnew.
  - inversion Hval; subst. simpl. now rewrite app_nil_r.
  - inversion Hval as [| ? value ? values' Hy Hys]; subst.
    inversion Hnew as [| ? ? Hlk Hnew']; subst.
    change (map Ok (y :: ys)) with (Ok y :: map Ok ys).
    rewrite (credLoop_insert _ _ _ _ _ _ _ Hy Hlk).
    rewrite (IH _ _ _ Hys Hnew'). simpl. now rewrite <- app_assoc.
Qed.

Lemma expLoop_all_new existing now ys : forall configs inserts updates,
  Forall2 (fun y config => exporterConfig' y = Next config) ys configs ->
  Forall (fun y => existing !! Exporter_Name y = None) ys ->
  expLoop' existing now (map Ok ys) inserts updates
  = Next (inserts ++ zip_with (exp_insert now) ys configs, updates).
Proof.
  induction ys as [| y ys IH]; intros configs inserts updates Hval Hnew.
  - inversion Hval; subst. simpl. now rewrite app_nil_r.
  - inversion Hval as [| ? config ? configs' Hy Hys]; subst.
    inversion Hnew as [| ? ? Hlk Hnew']; subst.
    change (map Ok (y :: ys)) with (Ok y :: map Ok ys).
    rewrite (expLoop_insert _ _ _ _ _ _ _ Hy Hlk).
    rewrite (IH _ _ _ Hys Hnew'). simpl. now rewrite <- app_assoc.
Qed.

(** *** The commit phase as a serial run *)

Lemma replay_app cs1 cs2 (s : St) :
  replay (cs1 ++ cs2) s = replay cs2 (replay cs1 s).
Proof. unfold replay. apply fold_left_app. Qed.

Lemma world_eta (w : World St) : mkWorld (store w) (calls w ++ []) = w.
Proof. destruct w. simpl. now rewrite app_nil_r. Qed.

Lemma credUpdateLoop_serial tenant updates : forall w : World St,
  exists log failure,
    credUpdateLoop tenant updates w
    = (match failure with
       | None => Next tt
       | Some _ => Return (commit_response failure)
       end,
       mkWorld (replay (map fst log) (store w)) (calls w ++ log))
    /\ serial (map (CredUpdate tenant) updates) log failure.
Proof.
  induction updates as [| u updates IH]; intros w.
  - exists [], None. simpl. unfold ret. rewrite world_eta.
    split; [reflexivity | constructor].
  - simpl. unfold bind, invoke.
    destruct (cred_Update tenant u (store w)) as [[err |] s] eqn:Hu.
    + exists [(CredUpdate tenant u, Some err)], (Some (CredUpdate tenant u, err)).
      simpl. unfold ret. rewrite Hu. split; [reflexivity | constructor].
    + destruct (IH (mkWorld s (calls w ++ [(CredUpdate tenant u, None)])))
        as (log & failure & Hrun & Hserial).
      exists ((CredUpdate tenant u, None) :: log), failure.
      split; [| now constructor].
      simpl in *. rewrite Hrun, Hu, <- app_assoc. reflexivity.
Qed.

Lemma expUpdateLoop_serial tenant updates : forall w : World St,
  exists log failure,
    expUpdateLoop tenant updates w
    = (match failure with
       | None => Next tt
       | Some _ => Return (commit_response failure)
       end,
       mkWorld (replay (map fst log) (store w)) (calls w ++ log))
    /\ serial (map (ExpUpdate tenant) updates) log failure.
Proof.
  induction updates as [| u updates IH]; intros w.
  - exists [], None. simpl. unfold ret. rewrite world_eta.
    split; [reflexivity | constructor].
  - simpl. unfold bind, invoke.
    destruct (exp_Update tenant u (store w)) as [[err |] s] eqn:Hu.
    + exists [(ExpUpdate tenant u, Some err)], (Some (ExpUpdate tenant u, err)).
      simpl. unfold ret. rewrite Hu. split; [reflexivity | constructor].
    + destruct (IH (mkWorld s (calls w ++ [(ExpUpdate tenant u, None)])))
        as (log & failure & Hrun & Hserial).
      exists ((ExpUpdate tenant u, None) :: log), failure.
      split; [| now constructor].
      simpl in *. rewrite Hrun, Hu, <- app_assoc. reflexivity.
Qed.

Lemma credUpdates_guard tenant updates (w : World St) :
  (if negb (length updates =? 0)%nat then credUpdateLoop tenant updates
   else ret (Next tt)) w
  = credUpdateLoop tenant updates w.
Proof. now destruct updates. Qed.

Lemma credCommit_serial tenant inserts updates (w : World St) :
  inserts <> [] \/ updates <> [] ->
  exists log failure,
    credCommit tenant inserts updates w
    = (commit_response failure,
       mkWorld (replay (map fst log) (store w)) (calls w ++ log))
    /\ serial (cred_plan tenant inserts updates) log failure.
Proof.
  intros Hne. unfold credCommit, cred_plan.
  assert ((length inserts + length updates =? 0)%nat = false) as ->.
  { apply Nat.eqb_neq. destruct inserts, updates; simpl; try lia.
    destruct Hne; congruence. }
  destruct inserts as [| i inserts].
  - simpl. unfold bind at 1. unfold ret at 1. unfold bind.
    destruct (credUpdateLoop_serial tenant updates w)
      as (log & failure & Hrun & Hserial).
    exists log, failure. split; [| exact Hserial].
    rewrite credUpdates_guard, Hrun. now destruct failure.
  - set (ins := i :: inserts). simpl negb. cbv iota.
    rewrite decide_False by discriminate.
    unfold bind, invoke.
    destruct (cred_Insert tenant ins (store w)) as [[err |] s] eqn:Hi.
    + exists [(CredInsert tenant ins, Some err)],
        (Some (CredInsert tenant ins, err)).
      simpl. unfold ret. rewrite Hi. split; [reflexivity | constructor].
    + unfold ret, id.
      destruct (credUpdateLoop_serial tenant updates
                  (mkWorld s (calls w ++ [(CredInsert tenant ins, None)])))
        as (log & failure & Hrun & Hserial).
      exists ((CredInsert tenant ins, None) :: log), failure.
      split; [| now constructor].
      rewrite credUpdates_guard, Hrun. simpl. rewrite Hi, <- app_assoc.
      now destruct failure.
Qed.

Lemma expUpdates_guard tenant updates (w : World St) :
  (if negb (length updates =? 0)%nat then expUpdateLoop tenant updates
   else ret (Next tt)) w
  = expUpdateLoop tenant updates w.
Proof. now destruct updates. Qed.

Lemma expCommit_serial tenant inserts updates (w : World St) :
  inserts <> [] \/ updates <> [] ->
  exists log failure,
    expCommit tenant inserts updates w
    = (commit_response failure,
       mkWorld (replay (map fst log) (store w)) (calls w ++ log))
    /\ serial (exp_plan tenant inserts updates) log failure.
Proof.
  intros Hne. unfold expCommit, exp_plan.
  assert ((length inserts + length updates =? 0)%nat = false) as ->.
  { apply Nat.eqb_neq. destruct inserts, updates; simpl; try lia.
    destruct Hne; congruence. }
  destruct inserts as [| i inserts].
  - simpl. unfold bind at 1. unfold ret at 1. unfold bind.
    destruct (expUpdateLoop_serial tenant updates w)
      as (log & failure & Hrun & Hserial).
    exists log, failure. split; [| exact Hserial].
    rewrite expUpdates_guard, Hrun. now destruct failure.
  - set (ins := i :: inserts). simpl negb. cbv iota.
    rewrite decide_False by discriminate.
    unfold bind, invoke.
    destruct (exp_Insert tenant ins (store w)) as [[err |] s] eqn:Hi.
    + exists [(ExpInsert tenant ins, Some err)],
        (Some (ExpInsert tenant ins, err)).
      simpl. unfold ret. rewrite Hi. split; [reflexivity | constructor].
    + unfold ret, id.
      destruct (expUpdateLoop_serial tenant updates
                  (mkWorld s (calls w ++ [(ExpInsert tenant ins, None)])))
        as (log & failure & Hrun & Hserial).
      exists ((ExpInsert tenant ins, None) :: log), failure.
      split; [| now constructor].
      rewrite expUpdates_guard, Hrun. simpl. rewrite Hi, <- app_assoc.
      now destruct failure.
Qed.

(** *** The commit phase against the answers of the store *)

Lemma replay_call_outcome (c : Call) (s : St) :
  replay_call c s = snd (call_outcome c s).
Proof.
  destruct c; simpl; try reflexivity.
  - now destruct (cred_List tenant s).
  - now destruct (cred_Get tenant name s).
  - now destruct (exp_List tenant s).
Qed.

Lemma run_plan_serial planned : forall (s : St) log failure s',
  run_plan planned s = (log, failure, s') ->
  serial planned log failure
  /\ s' = replay (map fst log) s
  /\ answered_by s log.
Proof.
  induction planned as [| c planned IH]; simpl; intros s log failure s' Hrun.
  - injection Hrun as <- <- <-. repeat split. constructor.
  - destruct (call_outcome c s) as [[err |] s1] eqn:Hc.
    + injection Hrun as <- <- <-. simpl.
      rewrite replay_call_outcome, Hc. repeat split. constructor.
    + destruct (run_plan planned s1) as [[log1 failure1] s2] eqn:Hrest.
      injection Hrun as <- <- <-.
      destruct (IH _ _ _ _ Hrest) as (Hserial & Hstore & Hans).
      simpl. rewrite replay_call_outcome, Hc. simpl.
      repeat split; [now constructor | exact Hstore | exact Hans].
Qed.

Lemma credUpdateLoop_run tenant updates : forall w : World St,
  exists log failure s',
    run_plan (map (CredUpdate tenant) updates) (store w) = (log, failure, s')
    /\ credUpdateLoop tenant updates w
       = (match failure with
          | None => Next tt
          | Some _ => Return (commit_response failure)
          end,
          mkWorld s' (calls w ++ log)).
Proof.
  induction updates as [| u updates IH]; intros w.
  - exists [], None, (store w). simpl. unfold ret. now rewrite world_eta.
  - simpl. unfold bind, invoke, id.
    destruct (cred_Update tenant u (store w)) as [[err |] s] eqn:Hu.
    + now exists [(CredUpdate tenant u, Some err)],
        (Some (CredUpdate tenant u, err)), s.
    + destruct (IH (mkWorld s (calls w ++ [(CredUpdate tenant u, None)])))
        as (log & failure & s' & Hplan & Hrun).
      exists ((CredUpdate tenant u, None) :: log), failure, s'.
      simpl in *. rewrite Hplan, Hrun, <- app_assoc. now split.
Qed.

Lemma expUpdateLoop_run tenant updates : forall w : World St,
  exists log failure s',
    run_plan (map (ExpUpdate tenant) updates) (store w) = (log, failure, s')
    /\ expUpdateLoop tenant updates w
       = (match failure with
          | None => Next tt
          | Some _ => Return (commit_response failure)
          end,
          mkWorld s' (calls w ++ log)).
Proof.
  induction updates as [| u updates IH]; intros w.
  - exists [], None, (store w). simpl. unfold ret. now rewrite world_eta.
  - simpl. unfold bind, invoke, id.
    destruct (exp_Update tenant u (store w)) as [[err |] s] eqn:Hu.
    + now exists [(ExpUpdate tenant u, Some err)],
        (Some (ExpUpdate tenant u, err)), s.
    + destruct (IH (mkWorld s (calls w ++ [(ExpUpdate tenant u, None)])))
        as (log & failure & s' & Hplan & Hrun).
      exists ((ExpUpdate tenant u, None) :: log), failure, s'.
      simpl in *. rewrite Hplan, Hrun, <- app_assoc. now split.
Qed.

Lemma credCommit_run tenant inserts updates (w : World St) :
  inserts <> [] \/ updates <> [] ->
  exists log failure s',
    run_plan (cred_plan tenant inserts updates) (store w) = (log, failure, s')
    /\ credCommit tenant inserts updates w
       = (commit_response failure, mkWorld s' (calls w ++ log)).
Proof.
  intros Hne. unfold credCommit, cred_plan.
  assert ((length inserts + length updates =? 0)%nat = false) as ->.
  { apply Nat.eqb_neq. destruct inserts, updates; simpl; try lia.
    destruct Hne; congruence. }
  destruct inserts as [| i inserts].
  - simpl. unfold bind at 1. unfold ret at 1. unfold bind.
    destruct (credUpdateLoop_run tenant updates w)
      as (log & failure & s' & Hplan & Hrun).
    exists log, failure, s'. split; [exact Hplan |].
    rewrite credUpdates_guard, Hrun. now destruct failure.
  - set (ins := i :: inserts). simpl negb. cbv iota.
    rewrite decide_False by discriminate.
    unfold bind, invoke, id. simpl.
    destruct (cred_Insert tenant ins (store w)) as [[err |] s] eqn:Hi.
    + now exists [(CredInsert tenant ins, Some err)],
        (Some (CredInsert tenant ins, err)), s.
    + unfold ret.
      destruct (credUpdateLoop_run tenant updates
                  (mkWorld s (calls w ++ [(CredInsert tenant ins, None)])))
        as (log & failure & s' & Hplan & Hrun).
      exists ((CredInsert tenant ins, None) :: log), failure, s'.
      simpl in Hplan. rewrite Hplan. split; [reflexivity |].
      rewrite credUpdates_guard, Hrun. simpl. rewrite <- app_assoc.
      now destruct failure.
Qed.

Lemma expCommit_run tenant inserts updates (w : World St) :
  inserts <> [] \/ updates <> [] ->
  exists log failure s',
    run_plan (exp_plan tenant inserts updates) (store w) = (log, failure, s')
    /\ expCommit tenant inserts updates w
       = (commit_response failure, mkWorld s' (calls w ++ log)).
Proof.
  intros Hne. unfold expCommit, exp_plan.
  assert ((length inserts + length updates =? 0)%nat = false) as ->.
  { apply Nat.eqb_neq. destruct inserts, updates; simpl; try lia.
    destruct Hne; congruence. }
  destruct inserts as [| i inserts].
  - simpl. unfold bind at 1. unfold ret at 1. unfold bind.
    destruct (expUpdateLoop_run tenant updates w)
      as (log & failure & s' & Hplan & Hrun).
    exists log, failure, s'. split; [exact Hplan |].
    rewrite expUpdates_guard, Hrun. now destruct failure.
  - set (ins := i :: inserts). simpl negb. cbv iota.
    rewrite decide_False by discriminate.
    unfold bind, invoke, id. simpl.
    destruct (exp_Insert tenant ins (store w)) as [[err |] s] eqn:Hi.
    + now exists [(ExpInsert tenant ins, Some err)],
        (Some (ExpInsert tenant ins, err)), s.
    + unfold ret.
      destruct (expUpdateLoop_run tenant updates
                  (mkWorld s (calls w ++ [(ExpInsert tenant ins, None)])))
        as (log & failure & s' & Hplan & Hrun).
      exists ((ExpInsert tenant ins, None) :: log), failure, s'.
      simpl in Hplan. rewrite Hplan. split; [reflexivity |].
      rewrite expUpdates_guard, Hrun. simpl. rewrite <- app_assoc.
      now destruct failure.
Qed.

(** C2: against a tenant with no existing resource, a body of N valid
  records yields N insert operations and no update, every insert stamped
  created_at = updated_at = now, and (for N > 0) the handler submits them
  as one bulk insert and submits no update; the names need not even be
  distinct.  More generally a valid record whose name is absent from the
  existing set is appended to the inserts with its name, type,
  value/config and created_at = updated_at = now.  Holds for credentials
  and for exporters. *)
Theorem new_records_become_inserts :
  (forall (r : Request Credential) (now : Timestamptz) (w : World St)
          tenant s ys values,
      getTenant r = Ok tenant ->
      cred_List tenant (store w) = (Ok [], s) ->
      req_Body r = map Ok ys ->
      Forall2 (fun y value =>
                 validate (Credential_Name y) (Credential_Type y)
                   (Credential_Value y) = Ok value) ys values ->
      let inserts := zip_with (cred_insert now) ys values in
      credLoop' (credExistingTypes []) now (req_Body r) [] []
      = Next (inserts, [])
      /\ length inserts = length ys
      /\ Forall (fun i => ci_CreatedAt i = now /\ ci_UpdatedAt i = now) inserts
      /\ (ys <> [] ->
          map fst (calls (snd (writeCredentials' r now w)))
          = map fst (calls w) ++ [CredList tenant; CredInsert tenant inserts]))
  /\ (forall existing now (y : Credential) value rest inserts updates,
      validate (Credential_Name y) (Credential_Type y) (Credential_Value y)
      = Ok value ->
      existing !! Credential_Name y = None ->
      credLoop' existing now (Ok y :: rest) inserts updates
      = credLoop' existing now rest
          (inserts ++ [mkCredentialInsertInput (Credential_Name y)
                         (Credential_Type y) value now now])
          updates)
  /\ (forall (r : Request Exporter) (now : Timestamptz) (w : World St)
             tenant s ys configs,
      getTenant r = Ok tenant ->
      exp_List tenant (store w) = (Ok [], s) ->
      req_Body r = map Ok ys ->
      Forall2 (fun y config => exporterConfig' y = Next config) ys configs ->
      let inserts := zip_with (exp_insert now) ys configs in
      expLoop' (expExistingTypes []) now (req_Body r) [] []
      = Next (inserts, [])
      /\ length inserts = length ys
      /\ Forall (fun i => ei_CreatedAt i = now /\ ei_UpdatedAt i = now) inserts
      /\ (ys <> [] ->
          map fst (calls (snd (writeExporters' r now w)))
          = map fst (calls w) ++ [ExpList tenant; ExpInsert tenant inserts]))
  /\ (forall existing now (y : Exporter) config rest inserts updates,
      exporterConfig' y = Next config ->
      existing !! Exporter_Name y = None ->
      expLoop' existing now (Ok y :: rest) inserts updates
      = expLoop' existing now rest
          (inserts ++ [mkExporterInsertInput (Exporter_Name y)
                         (Exporter_Type y) (exp_credential y) config now now])
          updates).
Proof.
  split; [| split; [| split]].
  - intros r now w tenant s ys values Hten Hlist Hbody Hval inserts.
    assert (Hloop : credLoop' (credExistingTypes []) now (req_Body r) [] []
                    = Next (inserts, [])).
    { rewrite Hbody. apply (credLoop_all_new _ now ys values [] [] Hval).
      apply Forall_forall. intros y _. apply lookup_empty. }
    assert (Hlen : length inserts = length ys).
    { unfold inserts. rewrite length_zip_with.
      apply Forall2_length in Hval. lia. }
    split; [exact Hloop |]. split; [exact Hlen |]. split.
    + unfold inserts. clear. revert values.
      induction ys as [| y ys IH]; intros [| v values]; simpl;
        constructor; auto.
    + intros Hne. unfold writeCredentials, bind, invoke.
      rewrite Hten, Hlist, Hloop. simpl.
      destruct (credCommit_serial tenant inserts []
                  (mkWorld s (calls w ++ [(CredList tenant, None)])))
        as (log & failure & -> & Hserial).
      { left. intros Hnil. rewrite Hnil in Hlen. destruct ys; simpl in *;
          [congruence | lia]. }
      unfold cred_plan in Hserial. simpl in Hserial.
      rewrite decide_False in Hserial
        by (intros Hnil; rewrite Hnil in Hlen; destruct ys; simpl in *;
            [congruence | lia]).
      apply serial_single in Hserial. simpl.
      rewrite !map_app, Hserial, <- app_assoc. reflexivity.
  - intros. now apply credLoop_insert.
  - intros r now w tenant s ys configs Hten Hlist Hbody Hval inserts.
    assert (Hloop : expLoop' (expExistingTypes []) now (req_Body r) [] []
                    = Next (inserts, [])).
    { rewrite Hbody. apply (expLoop_all_new _ now ys configs [] [] Hval).
      apply Forall_forall. intros y _. apply lookup_empty. }
    assert (Hlen : length inserts = length ys).
    { unfold inserts. rewrite length_zip_with.
      apply Forall2_length in Hval. lia. }
    split; [exact Hloop |]. split; [exact Hlen |]. split.
    + unfold inserts. clear. revert configs.
      induction ys as [| y ys IH]; intros [| v configs]; simpl;
        constructor; auto.
    + intros Hne. unfold writeExporters, bind, invoke.
      rewrite Hten, Hlist, Hloop. simpl.
      destruct (expCommit_serial tenant inserts []
                  (mkWorld s (calls w ++ [(ExpList tenant, None)])))
        as (log & failure & -> & Hserial).
      { left. intros Hnil. rewrite Hnil in Hlen. destruct ys; simpl in *;
          [congruence | lia]. }
      unfold exp_plan in Hserial. simpl in Hserial.
      rewrite decide_False in Hserial
        by (intros Hnil; rewrite Hnil in Hlen; destruct ys; simpl in *;
            [congruence | lia]).
      apply serial_single in Hserial. simpl.
      rewrite !map_app, Hserial, <- app_assoc. reflexivity.
  - intros. now apply expLoop_insert.
Qed.


(** C7: for a batch whose validation succeeds (and is not empty), the
    handler, after the listing, makes on the store the calls of the plan
    "all inserts as one bulk call, then one update call per update, in the
    order of the records in the body", one after the other, up to and
    including the first call that the store answers with an error: the log
    holds exactly these calls with the store's answers, nothing is
    submitted after the failing call, its error becomes the 500 response
    (a run without error gives the empty 200), and the store is left as
    the submitted calls made it (no call undoes them).  Holds for
    credentials and for exporters. *)
Theorem commit_runs_inserts_then_updates_until_failure :
  (forall (r : Request Credential) now (w : World St) tenant rows s ys
          inserts updates,
      getTenant r = Ok tenant ->
      cred_List tenant (store w) = (Ok rows, s) ->
      req_Body r = map Ok ys ->
      credLoop' (credExistingTypes rows) now (req_Body r) [] []
      = Next (inserts, updates) ->
      inserts <> [] \/ updates <> [] ->
      map cu_Name updates
      = filter (fun n => is_Some (credExistingTypes rows !! n))
          (map Credential_Name ys)
      /\ exists log failure s',
          run_plan (cred_plan tenant inserts updates) s = (log, failure, s')
          /\ writeCredentials' r now w
             = (commit_response failure,
                mkWorld s' (calls w ++ (CredList tenant, None) :: log))
          /\ serial (cred_plan tenant inserts updates) log failure
          /\ s' = replay (map fst log) s
          /\ answered_by s log)
  /\ (forall (r : Request Exporter) now (w : World St) tenant rows s ys
             inserts updates,
      getTenant r = Ok tenant ->
      exp_List tenant (store w) = (Ok rows, s) ->
      req_Body r = map Ok ys ->
      expLoop' (expExistingTypes rows) now (req_Body r) [] []
      = Next (inserts, updates) ->
      inserts <> [] \/ updates <> [] ->
      map eu_Name updates
      = filter (fun n => is_Some (expExistingTypes rows !! n))
          (map Exporter_Name ys)
      /\ exists log failure s',
          run_plan (exp_plan tenant inserts updates) s = (log, failure, s')
          /\ writeExporters' r now w
             = (commit_response failure,
                mkWorld s' (calls w ++ (ExpList tenant, None) :: log))
          /\ serial (exp_plan tenant inserts updates) log failure
          /\ s' = replay (map fst log) s
          /\ answered_by s log).
Proof.
  split; intros r now w tenant rows s ys inserts updates
           Hten Hlist Hbody Hloop Hne.
  - split.
    + rewrite Hbody in Hloop. now apply credLoop_names in Hloop as [_ ->].
    + destruct (credCommit_run tenant inserts updates
                  (mkWorld s (calls w ++ [(CredList tenant, None)])) Hne)
        as (log & failure & s' & Hplan & Hrun).
      simpl in Hplan. exists log, failure, s'.
      split; [exact Hplan |]. split; [| now apply run_plan_serial].
      unfold writeCredentials, bind, invoke.
      rewrite Hten, Hlist, Hloop. simpl. rewrite Hrun. simpl.
      now rewrite <- app_assoc.
  - split.
    + rewrite Hbody in Hloop. now apply expLoop_names in Hloop as [_ ->].
    + destruct (expCommit_run tenant inserts updates
                  (mkWorld s (calls w ++ [(ExpList tenant, None)])) Hne)
        as (log & failure & s' & Hplan & Hrun).
      simpl in Hplan. exists log, failure, s'.
      split; [exact Hplan |]. split; [| now apply run_plan_serial].
      unfold writeExporters, bind, invoke.
      rewrite Hten, Hlist, Hloop. simpl. rewrite Hrun. simpl.
      now rewrite <- app_assoc.
Qed.

(** C10: whether a record becomes an insert or an update is decided by
  the existing set alone, which the loop never extends: in a batch that
  passes validation the names of the inserts are exactly the submitted
  names absent from the existing set, and the names of the updates
  exactly those present in it, each in body order and as many times as
  submitted; so two records with the same new name are both inserts and
  two with the same existing name both updates.  Holds for credentials
  and for exporters. *)
Theorem classification_by_existing_only :
  (forall existing now (ys : list Credential) inserts updates,
      credLoop' existing now (map Ok ys) [] [] = Next (inserts, updates) ->
      map ci_Name inserts
      = filter (fun n => existing !! n = None) (map Credential_Name ys)
      /\ map cu_Name updates
         = filter (fun n => is_Some (existing !! n))
             (map Credential_Name ys))
  /\ (forall existing now (ys : list Exporter) inserts updates,
      expLoop' existing now (map Ok ys) [] [] = Next (inserts, updates) ->
      map ei_Name inserts
      = filter (fun n => existing !! n = None) (map Exporter_Name ys)
      /\ map eu_Name updates
         = filter (fun n => is_Some (existing !! n))
             (map Exporter_Name ys)).
Proof.
  split; intros existing now ys inserts updates Hloop.
  - now apply credLoop_names in Hloop.
  - now apply expLoop_names in Hloop.
Qed.



End HandlerProofs.

Section ReadProofs.

Context {St : Type} `{!CredentialAccess St}.

(** *** Credential reads *)

Lemma encode_CredentialInfo_keys (i : CredentialInfo) (k : string) :
  k ∈ doc_keys (encode_CredentialInfo i) ->
  k ∈ ["name"; "type"; "created_at"; "updated_at"] /\ k <> "value".
Proof.
  unfold encode_CredentialInfo, omitempty, doc_keys.
  repeat case_decide; simpl; intros Hk; set_unfold;
    intuition (subst; auto; discriminate).
Qed.

Lemma encode_redact (c : CredentialRow) :
  encode_CredentialInfo (credentialInfo (redact c))
  = encode_CredentialInfo (credentialInfo c).
Proof. reflexivity. Qed.

Lemma encode_map_redact (rows : list CredentialRow) :
  map (fun c => encode_CredentialInfo (credentialInfo c)) (map redact rows)
  = map (fun c => encode_CredentialInfo (credentialInfo c)) rows.
Proof. rewrite map_map. apply map_ext. intros c. apply encode_redact. Qed.

(** C8: a document of a credential read response has no field besides
    name, type, created_at and updated_at, and never the field value; and
    the response of listCredentials and of getCredential is the same on two
    stores whose answers differ in the secret values only. *)
Theorem credential_reads_are_independent_of_value :
  (forall (c : CredentialRow) (k : string),
      k ∈ doc_keys (encode_CredentialInfo (credentialInfo c)) ->
      k ∈ ["name"; "type"; "created_at"; "updated_at"] /\ k <> "value")
  /\ (forall R (r : Request R) (w : World St) (o : Output),
      o ∈ body (fst (listCredentials r w))
      \/ o ∈ body (fst (getCredential r w)) ->
      "value" ∉ doc_keys o)
  /\ (forall R (r : Request R) (w1 w2 : World St),
      (forall tenant,
          redact_list (fst (cred_List tenant (store w1)))
          = redact_list (fst (cred_List tenant (store w2)))) ->
      fst (listCredentials r w1) = fst (listCredentials r w2))
  /\ (forall R (r : Request R) (w1 w2 : World St),
      (forall tenant name,
          redact_get (fst (cred_Get tenant name (store w1)))
          = redact_get (fst (cred_Get tenant name (store w2)))) ->
      fst (getCredential r w1) = fst (getCredential r w2)).
Proof.
  split; [| split; [| split]].
  - intros c k. apply encode_CredentialInfo_keys.
  - intros R r w o Ho Hval.
    assert (Hdoc : (exists msg, o = Line msg)
                 \/ exists i, o = encode_CredentialInfo i).
    { destruct Ho as [Ho | Ho].
      - unfold listCredentials, bind, invoke, ret in Ho.
        destruct (getTenant r) as [tenant | err]; simpl in Ho.
        + destruct (cred_List tenant (store w)) as [[rows | err] s];
            simpl in Ho.
          * apply list_elem_of_fmap in Ho as (c & -> & _). eauto.
          * apply list_elem_of_singleton in Ho. eauto.
        + apply list_elem_of_singleton in Ho. eauto.
      - unfold getCredential, bind, invoke, ret in Ho.
        destruct (getTenant r) as [tenant | err]; simpl in Ho.
        + destruct (cred_Get tenant (req_Name r) (store w))
            as [[[row |] | err] s]; simpl in Ho;
            apply list_elem_of_singleton in Ho; eauto.
        + apply list_elem_of_singleton in Ho. eauto. }
    destruct Hdoc as [(msg & ->) | (i & ->)].
    + simpl in Hval. now apply elem_of_nil in Hval.
    + apply encode_CredentialInfo_keys in Hval as [_ Hne]. now apply Hne.
  - intros R r w1 w2 Hsame. unfold listCredentials, bind, invoke, ret.
    destruct (getTenant r) as [tenant | err]; [| reflexivity].
    specialize (Hsame tenant).
    destruct (cred_List tenant (store w1)) as [[rows1 | err1] s1],
             (cred_List tenant (store w2)) as [[rows2 | err2] s2];
      simpl in *; try discriminate.
    + injection Hsame as Hsame.
      now rewrite <- (encode_map_redact rows1), Hsame, encode_map_redact.
    + now injection Hsame as ->.
  - intros R r w1 w2 Hsame. unfold getCredential, bind, invoke, ret.
    destruct (getTenant r) as [tenant | err]; [| reflexivity].
    specialize (Hsame tenant (req_Name r)).
    destruct (cred_Get tenant (req_Name r) (store w1)) as [[row1 | err1] s1],
             (cred_Get tenant (req_Name r) (store w2)) as [[row2 | err2] s2];
      cbn [fst] in *; unfold redact_get in Hsame; try discriminate.
    + destruct row1 as [row1 |], row2 as [row2 |];
        cbn [option_map] in Hsame; try discriminate; [| reflexivity].
      assert (Hrow : redact row1 = redact row2) by congruence.
      now rewrite <- (encode_redact row1), Hrow, encode_redact.
    + now injection Hsame as ->.
Qed.

End ReadProofs.

(** * The theorems on concrete requests *)

Lemma rejected_batch_submits_no_write_witness :
  (exists resp,
      writeCredentials Fixture.json_String Fixture.json_Valid
        (Fixture.request [Ok Fixture.cred_new; Ok Fixture.cred_c1_as_gcp])
        Fixture.now (Fixture.world (Fixture.stocked "s3cr3t"))
      = (resp, mkWorld (Fixture.stocked "s3cr3t") [(CredList "tenant1", None)])
      /\ status resp = StatusBadRequest)
  /\ (exists resp,
      writeExporters Fixture.json_Marshal
        (Fixture.request [Ok Fixture.exp_untyped; Ok Fixture.exp_scalar_config])
        Fixture.now (Fixture.world (Fixture.stocked "s3cr3t"))
      = (resp, mkWorld (Fixture.stocked "s3cr3t") [(ExpList "tenant1", None)])
      /\ status resp = StatusBadRequest).
Proof.
  pose proof (rejected_batch_submits_no_write Fixture.json_String
                Fixture.json_Valid Fixture.json_Marshal
                (St := Fixture.Store)) as [Hcred Hexp].
  split.
  - apply (Hcred (Fixture.request [Ok Fixture.cred_new; Ok Fixture.cred_c1_as_gcp])
             Fixture.now (Fixture.world (Fixture.stocked "s3cr3t")) "tenant1"
             [Fixture.row_c1 "s3cr3t"; Fixture.row_c2]
             (Fixture.stocked "s3cr3t")); [reflexivity | reflexivity |].
    apply Exists_cons_tl, Exists_cons_hd.
    apply cred_rejected_type_change with (current := "aws-key");
      [vm_compute; reflexivity | discriminate | discriminate].
  - apply (Hexp (Fixture.request [Ok Fixture.exp_untyped;
                                  Ok Fixture.exp_scalar_config])
             Fixture.now (Fixture.world (Fixture.stocked "s3cr3t")) "tenant1"
             [mkExporterRow "e2" "cloudwatch"]
             (Fixture.stocked "s3cr3t")); [reflexivity | reflexivity |].
    apply Exists_cons_tl, Exists_cons_hd.
    apply exp_rejected_not_map. intros m. discriminate.
Defined.

Lemma new_records_become_inserts_witness :
  let r := Fixture.request [Ok Fixture.cred_aws; Ok Fixture.cred_gcp] in
  let inserts :=
    [mkCredentialInsertInput "c1" "aws-key"
       (aws_json (quoted "A") (quoted "B")) Fixture.now Fixture.now;
     mkCredentialInsertInput "c2" "gcp-service-account" Fixture.sample_json
       Fixture.now Fixture.now] in
  credLoop Fixture.json_String Fixture.json_Valid (credExistingTypes [])
    Fixture.now (req_Body r) [] []
  = Next (inserts, [])
  /\ length inserts = 2%nat
  /\ Forall (fun i => ci_CreatedAt i = Fixture.now
                      /\ ci_UpdatedAt i = Fixture.now) inserts
  /\ ([Fixture.cred_aws; Fixture.cred_gcp] <> [] ->
      map fst (calls (snd (writeCredentials Fixture.json_String
                             Fixture.json_Valid r Fixture.now
                             (Fixture.world Fixture.empty))))
      = [CredList "tenant1"; CredInsert "tenant1" inserts]).
Proof.
  apply (proj1 (new_records_become_inserts Fixture.json_String
                  Fixture.json_Valid Fixture.json_Marshal)
           (Fixture.request [Ok Fixture.cred_aws; Ok Fixture.cred_gcp])
           Fixture.now (Fixture.world Fixture.empty) "tenant1" Fixture.empty
           [Fixture.cred_aws; Fixture.cred_gcp]
           [aws_json (quoted "A") (quoted "B"); Fixture.sample_json]);
    [reflexivity | reflexivity | reflexivity |].
  repeat constructor.
Defined.


Lemma commit_runs_inserts_then_updates_until_failure_witness :
  let r := Fixture.request [Ok Fixture.cred_new; Ok Fixture.cred_c1_again;
                            Ok Fixture.cred_gcp] in
  let inserts :=
    [mkCredentialInsertInput "c3" "gcp-service-account" Fixture.sample_json
       Fixture.now Fixture.now] in
  let updates :=
    [mkUpdateCredentialVariables "c1" (aws_json (quoted "A2") (quoted "B2"))
       Fixture.now;
     mkUpdateCredentialVariables "c2" Fixture.sample_json Fixture.now] in
  map cu_Name updates
  = filter (fun n => is_Some (credExistingTypes
                                [Fixture.row_c1 "s3cr3t"; Fixture.row_c2] !! n))
      ["c3"; "c1"; "c2"]
  /\ exists log failure s',
      run_plan (cred_plan "tenant1" inserts updates) (Fixture.stocked "s3cr3t")
      = (log, failure, s')
      /\ writeCredentials Fixture.json_String Fixture.json_Valid r Fixture.now
           (Fixture.world (Fixture.stocked "s3cr3t"))
         = (commit_response failure,
            mkWorld s' ((CredList "tenant1", None) :: log))
      /\ serial (cred_plan "tenant1" inserts updates) log failure
      /\ s' = replay (map fst log) (Fixture.stocked "s3cr3t")
      /\ answered_by (Fixture.stocked "s3cr3t") log.
Proof.
  apply (proj1 (commit_runs_inserts_then_updates_until_failure
                  Fixture.json_String Fixture.json_Valid Fixture.json_Marshal)
           (Fixture.request [Ok Fixture.cred_new; Ok Fixture.cred_c1_again;
                             Ok Fixture.cred_gcp])
           Fixture.now (Fixture.world (Fixture.stocked "s3cr3t")) "tenant1"
           [Fixture.row_c1 "s3cr3t"; Fixture.row_c2] (Fixture.stocked "s3cr3t")
           [Fixture.cred_new; Fixture.cred_c1_again; Fixture.cred_gcp]);
    [reflexivity | reflexivity | reflexivity | vm_compute; reflexivity |].
  left. discriminate.
Defined.

(** The run of that request: the bulk insert of c3 goes through, the
    update of c1 is refused, the update of c2 is never submitted, and c3
    stays in the store. *)
Example commit_stops_at_refused_update :
  writeCredentials Fixture.json_String Fixture.json_Valid
    (Fixture.request [Ok Fixture.cred_new; Ok Fixture.cred_c1_again;
                      Ok Fixture.cred_gcp])
    Fixture.now (Fixture.world (Fixture.stocked "s3cr3t"))
  = (http_Error "Updating credential c1 failed: locked"
       StatusInternalServerError,
     mkWorld
       (Fixture.mkStore
          [Fixture.row_c1 "s3cr3t"; Fixture.row_c2;
           mkCredentialRow "c3" "gcp-service-account" Fixture.sample_json
             Fixture.now Fixture.now]
          [mkExporterRow "e2" "cloudwatch"] ["c1"])
       [(CredList "tenant1", None);
        (CredInsert "tenant1"
           [mkCredentialInsertInput "c3" "gcp-service-account"
              Fixture.sample_json Fixture.now Fixture.now], None);
        (CredUpdate "tenant1"
           (mkUpdateCredentialVariables "c1"
              (aws_json (quoted "A2") (quoted "B2")) Fixture.now),
         Some "locked")]).
Proof. vm_compute. reflexivity. Qed.

Lemma classification_by_existing_only_witness :
  map ci_Name
    [mkCredentialInsertInput "c1" "aws-key"
       (aws_json (quoted "A") (quoted "B")) Fixture.now Fixture.now;
     mkCredentialInsertInput "c1" "aws-key"
       (aws_json (quoted "A2") (quoted "B2")) Fixture.now Fixture.now]
  = ["c1"; "c1"]
  /\ map cu_Name [] = [].
Proof.
  pose proof (proj1 (classification_by_existing_only Fixture.json_String
                       Fixture.json_Valid Fixture.json_Marshal)
                ∅ Fixture.now [Fixture.cred_aws; Fixture.cred_c1_again]
                [mkCredentialInsertInput "c1" "aws-key"
                   (aws_json (quoted "A") (quoted "B")) Fixture.now Fixture.now;
                 mkCredentialInsertInput "c1" "aws-key"
                   (aws_json (quoted "A2") (quoted "B2"))
                   Fixture.now Fixture.now]
                []) as H.
  apply H. vm_compute. reflexivity.
Defined.

(** Two records with the same new name are both inserted. *)
Example duplicate_new_names_are_both_inserts :
  credLoop Fixture.json_String Fixture.json_Valid ∅ Fixture.now
    [Ok Fixture.cred_aws; Ok Fixture.cred_c1_again] [] []
  = Next ([mkCredentialInsertInput "c1" "aws-key"
             (aws_json (quoted "A") (quoted "B")) Fixture.now Fixture.now;
           mkCredentialInsertInput "c1" "aws-key"
             (aws_json (quoted "A2") (quoted "B2")) Fixture.now Fixture.now],
          []).
Proof. vm_compute. reflexivity. Qed.

Lemma credential_reads_are_independent_of_value_witness :
  fst (listCredentials (Fixture.request (R := Credential) [])
         (Fixture.world (Fixture.stocked "s3cr3t")))
  = fst (listCredentials (Fixture.request (R := Credential) [])
           (Fixture.world (Fixture.stocked "another-s3cr3t"))).
Proof.
  apply (proj1 (proj2 (proj2 (credential_reads_are_independent_of_value
                                (St := Fixture.Store))))).
  intros tenant. reflexivity.
Defined.



(** * Further properties of the handlers and helpers *)

(** ** getTenant *)

(** X1: getTenant succeeds exactly when the X-Scope-Orgid header is present
    with one value that is not empty, and returns that value; an absent
    header is reported as missing, every other header as invalid, both with
    the URL of the request. *)
Theorem getTenant_one_nonempty_value {R} (r : Request R) :
  (forall t, getTenant r = Ok t <->
             req_Tenants r = Some [t] /\ t <> EmptyString)
  /\ (req_Tenants r = None ->
      getTenant r = Err ("missing tenant ID in request to " +:+ req_URL r))
  /\ (forall ts, req_Tenants r = Some ts ->
                 (forall t, ts = [t] -> t = EmptyString) ->
                 getTenant r
                 = Err ("invalid tenant ID in request to " +:+ req_URL r)).
Proof.
  unfold getTenant. destruct (req_Tenants r) as [ts |].
  - split; [| split].
    + intros t. destruct ts as [| t1 [| t2 ts]]; simpl.
      * split; [discriminate | intros [[=] _]].
      * destruct t1 as [| a t1]; simpl.
        -- split; [discriminate | intros [[= <-] Hne]; now destruct Hne].
        -- split; [intros [= <-]; now split | intros [[= <-] _]; reflexivity].
      * split; [discriminate | intros [[=] _]].
    + discriminate.
    + intros ts' [= <-] Hempty.
      destruct ts as [| t1 [| t2 ts]]; simpl; try reflexivity.
      now rewrite (Hempty t1 eq_refl).
  - split; [| split].
    + intros t. split; [discriminate | intros [[=] _]].
    + reflexivity.
    + discriminate.
Qed.

Lemma getTenant_one_nonempty_value_witness :
  getTenant (Fixture.request (R := Credential) []) = Ok "tenant1"
  /\ getTenant (mkRequest (R := Credential) "/api/v1/credentials"
                  (Some ["a"; "b"]) EmptyString [])
     = Err "invalid tenant ID in request to /api/v1/credentials".
Proof.
  split.
  - apply (proj1 (getTenant_one_nonempty_value
                    (Fixture.request (R := Credential) []))).
    split; [reflexivity | discriminate].
  - apply (proj2 (proj2 (getTenant_one_nonempty_value
                           (mkRequest (R := Credential) "/api/v1/credentials"
                              (Some ["a"; "b"]) EmptyString [])))
             ["a"; "b"]); [reflexivity | discriminate].
Defined.

(** ** recurseMapStringKeys on arbitrary trees *)

Section RangeInversion.

Variable rec : value -> result value.

Lemma rangeSeq_inv vs : forall visited r,
  rangeSeq rec (length visited) vs (visited ++ vs) = Ok r ->
  exists convs,
    Forall2 (fun x conv => rec x = Ok conv) vs convs
    /\ r = Seq (visited ++ convs).
Proof.
  induction vs as [| x vs IH]; simpl; intros visited r Hr.
  - injection Hr as <-. exists []. split; [constructor | reflexivity].
  - destruct (rec x) as [conv |] eqn:Hx; [| discriminate].
    replace (length visited) with (length visited + 0)%nat in Hr at 2 by lia.
    rewrite insert_app_r in Hr. simpl in Hr.
    specialize (IH (visited ++ [conv]) r).
    rewrite length_app, <- app_assoc, Nat.add_1_r in IH. simpl in IH.
    destruct (IH Hr) as (convs & Hall & ->).
    exists (conv :: convs). split; [now constructor |].
    now rewrite <- app_assoc.
Qed.

Lemma rangeSeq_fixed vs : forall visited,
  Forall (fun x => rec x = Ok x) vs ->
  rangeSeq rec (length visited) vs (visited ++ vs) = Ok (Seq (visited ++ vs)).
Proof.
  induction vs as [| x vs IH]; simpl; intros visited Hall; [reflexivity |].
  inversion Hall as [| ? ? Hx Hvs]; subst. rewrite Hx.
  replace (length visited) with (length visited + 0)%nat at 2 by lia.
  rewrite insert_app_r. simpl.
  specialize (IH (visited ++ [x]) Hvs).
  rewrite length_app, <- app_assoc, Nat.add_1_r in IH. exact IH.
Qed.

Lemma strmap_set_values (P : value -> Prop) k v m :
  P v -> Forall (fun kv => P (snd kv)) m ->
  Forall (fun kv => P (snd kv)) (strmap_set k v m).
Proof.
  intros Hv. induction 1 as [| [k' v'] m Hkv Hm IH]; simpl.
  - now repeat constructor.
  - destruct (decide (k' = k)); constructor; auto.
Qed.

Lemma rangeMap_inv (P : value -> Prop) kvs : forall strMap r,
  Forall (fun kv => forall conv, rec (snd kv) = Ok conv -> P conv) kvs ->
  Forall (fun kv => P (snd kv)) strMap ->
  rangeMap rec kvs strMap = Ok r ->
  exists m, r = StrMap m /\ Forall (fun kv => P (snd kv)) m.
Proof.
  induction kvs as [| [k x] kvs IH]; simpl; intros strMap r Hkvs Hacc Hr.
  - injection Hr as <-. now exists strMap.
  - inversion Hkvs as [| ? ? Hx Hrest]; subst. simpl in Hx.
    destruct k as [| | | | s]; try discriminate.
    destruct (rec x) as [conv |] eqn:Hconv; [| discriminate].
    apply (IH _ _ Hrest) in Hr; [exact Hr |].
    apply strmap_set_values; auto.
Qed.

End RangeInversion.

(** X2: a tree that recurseMapStringKeys returned is left unchanged by a
    second pass: the conversion is idempotent, on every input. *)
Theorem recurseMapStringKeys_idempotent (v r : value) :
  recurseMapStringKeys v = Ok r -> recurseMapStringKeys r = Ok r.
Proof.
  revert r. induction v as [c | l IH | m IH | m IH] using value_ind';
    intros r Hr.
  - injection Hr as <-. reflexivity.
  - change (rangeSeq recurseMapStringKeys (length (@nil value)) l ([] ++ l)
            = Ok r) in Hr.
    apply rangeSeq_inv in Hr as (convs & Hall & ->). simpl.
    apply (rangeSeq_fixed recurseMapStringKeys convs []).
    clear -IH Hall. induction Hall as [| x conv l convs Hx Hall IHall];
      [constructor |].
    inversion IH as [| ? ? IHx IHl]; subst. constructor; auto.
  - change (rangeMap recurseMapStringKeys m [] = Ok r) in Hr.
    apply (rangeMap_inv _ (fun _ => True)) in Hr as (m' & -> & _);
      [reflexivity | | constructor].
    apply Forall_forall. auto.
  - injection Hr as <-. reflexivity.
Qed.

Lemma recurseMapStringKeys_idempotent_witness :
  recurseMapStringKeys (normalized Fixture.nested_tree)
  = Ok (normalized Fixture.nested_tree).
Proof.
  apply (recurseMapStringKeys_idempotent Fixture.nested_tree).
  vm_compute. reflexivity.
Defined.

(** X3: when the input holds no [map[string]interface{}] (as every tree
    decoded from YAML), the tree recurseMapStringKeys returns holds no
    [map[interface{}]interface{}] anywhere: every map left has string
    keys, so that encoding/json can take it. *)
Theorem recurseMapStringKeys_leaves_no_yaml_map (v r : value) :
  has_strmap v = false ->
  recurseMapStringKeys v = Ok r ->
  has_map r = false.
Proof.
  revert r. induction v as [c | l IH | m IH | m IH] using value_ind';
    intros r Hin Hr.
  - injection Hr as <-. reflexivity.
  - change (rangeSeq recurseMapStringKeys (length (@nil value)) l ([] ++ l)
            = Ok r) in Hr.
    apply rangeSeq_inv in Hr as (convs & Hall & ->). simpl in *.
    induction Hall as [| x conv l convs Hx Hall IHall]; [reflexivity |].
    inversion IH as [| ? ? IHx IHl]; subst. simpl in *.
    apply orb_false_iff in Hin as [Hx' Hl'].
    rewrite (IHx _ Hx' Hx). simpl. auto.
  - change (rangeMap recurseMapStringKeys m [] = Ok r) in Hr.
    apply (rangeMap_inv _ (fun c => has_map c = false))
      in Hr as (m' & -> & Hm'); [| | constructor].
    + simpl. clear -Hm'. induction Hm' as [| [k c] m' Hc Hm' IHm'];
        [reflexivity |]. simpl in *. now rewrite Hc.
    + simpl in Hin. clear Hr.
      induction IH as [| [k x] m IHx IHm IHrec]; constructor.
      * simpl in *. apply orb_false_iff in Hin as [Hx _]. intros conv.
        now apply IHx.
      * apply IHrec. simpl in Hin. now apply orb_false_iff in Hin as [_ ?].
  - discriminate.
Qed.

Lemma recurseMapStringKeys_leaves_no_yaml_map_witness :
  has_map (normalized Fixture.nested_tree) = false.
Proof.
  apply (recurseMapStringKeys_leaves_no_yaml_map Fixture.nested_tree);
    vm_compute; reflexivity.
Defined.

Section RangeFailure.

Variable rec : value -> result value.

Let settled (x : value) : Prop :=
  if visits_nonstring_key x then rec x = Err keys_must_be_strings
  else is_ok (rec x) = true.

Lemma rangeSeq_settled vs : forall i inType,
  Forall settled vs ->
  if existsb visits_nonstring_key vs
  then rangeSeq rec i vs inType = Err keys_must_be_strings
  else is_ok (rangeSeq rec i vs inType) = true.
Proof.
  induction vs as [| x vs IH]; simpl; intros i inType Hall; [reflexivity |].
  inversion Hall as [| ? ? Hx Hvs]; subst. unfold settled in Hx.
  destruct (visits_nonstring_key x); simpl.
  - now rewrite Hx.
  - destruct (rec x) as [conv |]; [| discriminate]. now apply IH.
Qed.

Lemma rangeMap_settled kvs : forall strMap,
  Forall (fun kv => settled (snd kv)) kvs ->
  if existsb (fun kv => let '(k, x) := kv in
                        negb (is_str_key k) || visits_nonstring_key x) kvs
  then rangeMap rec kvs strMap = Err keys_must_be_strings
  else is_ok (rangeMap rec kvs strMap) = true.
Proof.
  induction kvs as [| [k x] kvs IH]; simpl; intros strMap Hall;
    [reflexivity |].
  inversion Hall as [| ? ? Hx Hkvs]; subst. unfold settled in Hx. simpl in Hx.
  destruct k as [| | | | s]; simpl; try reflexivity.
  destruct (visits_nonstring_key x); simpl.
  - now rewrite Hx.
  - destruct (rec x) as [conv |]; [| discriminate]. now apply IH.
Qed.

End RangeFailure.

(** X4: on every input, recurseMapStringKeys fails exactly when a mapping
    it visits (through sequences and the values of YAML mappings) has a key
    that is not a string, and the keys-must-be-strings error is the only
    error it ever returns. *)
Theorem recurseMapStringKeys_fails_exactly_on_visited_key (v : value) :
  (visits_nonstring_key v = true ->
   recurseMapStringKeys v = Err keys_must_be_strings)
  /\ (visits_nonstring_key v = false ->
      exists r, recurseMapStringKeys v = Ok r)
  /\ (forall e, recurseMapStringKeys v = Err e -> e = keys_must_be_strings).
Proof.
  assert (H : if visits_nonstring_key v
              then recurseMapStringKeys v = Err keys_must_be_strings
              else is_ok (recurseMapStringKeys v) = true).
  { induction v as [c | l IH | m IH | m IH] using value_ind';
      try reflexivity.
    - apply (rangeSeq_settled recurseMapStringKeys l 0 l IH).
    - apply (rangeMap_settled recurseMapStringKeys m [] IH). }
  destruct (visits_nonstring_key v); repeat split; try discriminate; auto.
  - congruence.
  - intros _. destruct (recurseMapStringKeys v); [eauto | discriminate].
  - intros e He. now rewrite He in H.
Qed.

Lemma recurseMapStringKeys_fails_exactly_on_visited_key_witness :
  recurseMapStringKeys Fixture.bad_key_tree = Err keys_must_be_strings
  /\ exists r, recurseMapStringKeys (StrMap [("k", Fixture.bad_key_tree)]) = Ok r.
Proof.
  split.
  - apply (proj1 (recurseMapStringKeys_fails_exactly_on_visited_key
                    Fixture.bad_key_tree)). reflexivity.
  - apply (proj1 (proj2 (recurseMapStringKeys_fails_exactly_on_visited_key
                           (StrMap [("k", Fixture.bad_key_tree)])))).
    reflexivity.
Defined.

(** ** validateCredValue and the order of the entries of a map *)

Lemma map_get_perm (k : scalar) (m1 m2 : list (scalar * value)) :
  m1 ≡ₚ m2 -> NoDup (map fst m1) -> map_get k m1 = map_get k m2.
Proof.
  induction 1 as [| [k1 v1] m1 m2 Hperm IH
                  | [k1 v1] [k2 v2] m | m1 m2 m3 H12 IH12 H23 IH23];
    intros Hnd; simpl.
  - reflexivity.
  - destruct (decide (k1 = k)); [reflexivity |].
    apply IH. simpl in Hnd. now apply NoDup_cons in Hnd as [_ ?].
  - simpl in Hnd. apply NoDup_cons in Hnd as [Hnotin _].
    destruct (decide (k2 = k)) as [-> |], (decide (k1 = k)) as [-> |];
      try reflexivity.
    exfalso. apply Hnotin. now left.
  - rewrite IH12 by exact Hnd. apply IH23.
    assert (Hp : map fst m1 ≡ₚ map fst m2) by now apply fmap_Permutation.
    now rewrite <- Hp.
Qed.

(** X5: the order in which the entries of a map are listed does not matter
    to validateCredValue: two listings of the same map (no key twice) get
    the same answer, for every credential type. *)
Theorem validateCredValue_ignores_entry_order
    (json_String : string -> string) (json_Valid : string -> bool)
    (credName credType : string) (m1 m2 : list (scalar * value)) :
  m1 ≡ₚ m2 -> NoDup (map fst m1) ->
  validateCredValue json_String json_Valid credName credType (Map m1)
  = validateCredValue json_String json_Valid credName credType (Map m2).
Proof.
  intros Hperm Hnd. unfold validateCredValue.
  rewrite (Permutation_length Hperm).
  now rewrite !(map_get_perm _ m1 m2 Hperm Hnd).
Qed.

Lemma validateCredValue_ignores_entry_order_witness :
  validateCredValue Fixture.json_String Fixture.json_Valid "c1" "aws-key"
    (Fixture.aws_value "A" "B")
  = validateCredValue Fixture.json_String Fixture.json_Valid "c1" "aws-key"
      (Map [(SStr "AWS_SECRET_ACCESS_KEY", VStr "B");
            (SStr "AWS_ACCESS_KEY_ID", VStr "A")]).
Proof.
  apply (validateCredValue_ignores_entry_order Fixture.json_String
           Fixture.json_Valid "c1" "aws-key").
  - apply perm_swap.
  - compute_done.
Defined.

(** ** The YAML encoding of CredentialInfo *)

(** X6: the encoding of CredentialInfo loses nothing: two structs with the
    same document are equal, although empty fields are left out. *)
Theorem encode_CredentialInfo_injective (i1 i2 : CredentialInfo) :
  encode_CredentialInfo i1 = encode_CredentialInfo i2 -> i1 = i2.
Proof.
  destruct i1 as [n1 t1 c1 u1], i2 as [n2 t2 c2 u2].
  unfold encode_CredentialInfo, omitempty. simpl.
  repeat case_decide; simpl; intros Hdoc; simplify_eq; reflexivity.
Qed.

Lemma encode_CredentialInfo_injective_witness :
  mkCredentialInfo "c1" EmptyString EmptyString EmptyString
  = mkCredentialInfo "c1" EmptyString EmptyString EmptyString.
Proof.
  apply (encode_CredentialInfo_injective
           (mkCredentialInfo "c1" EmptyString EmptyString EmptyString)
           (mkCredentialInfo "c1" EmptyString EmptyString EmptyString)).
  reflexivity.
Defined.

(** ** The reconciliation loops, record by record *)

Section LoopProperties.

Variable json_String : string -> string.
Variable json_Valid : string -> bool.
Variable json_Marshal : value -> result Json.

Local Abbreviation validate := (validateCredValue json_String json_Valid).
Local Abbreviation credLoop' := (credLoop json_String json_Valid).
Local Abbreviation expLoop' := (expLoop json_Marshal).
Local Abbreviation exporterConfig' := (exporterConfig json_Marshal).
Local Abbreviation cred_rejected' := (cred_rejected json_String json_Valid).
Local Abbreviation exp_rejected' := (exp_rejected json_Marshal).

Lemma credLoop_count existing now ds : forall inserts updates inserts' updates',
  credLoop' existing now ds inserts updates = Next (inserts', updates') ->
  exists ys,
    ds = map Ok ys
    /\ (length inserts' + length updates'
        = length inserts + length updates + length ys)%nat.
Proof.
  induction ds as [| [y | err] ds IH]; simpl;
    intros inserts updates inserts' updates' Hloop; [| | discriminate].
  - injection Hloop as <- <-. exists []. split; [reflexivity | simpl; lia].
  - destruct (validate _ _ _) as [value |]; [| discriminate].
    destruct (existing !! Credential_Name y) as [current |].
    + destruct (negb _ && negb _); [discriminate |].
      apply IH in Hloop as (ys & -> & Hlen). exists (y :: ys).
      split; [reflexivity |]. rewrite length_app in Hlen. simpl in *. lia.
    + apply IH in Hloop as (ys & -> & Hlen). exists (y :: ys).
      split; [reflexivity |]. rewrite length_app in Hlen. simpl in *. lia.
Qed.

Lemma expLoop_count existing now ds : forall inserts updates inserts' updates',
  expLoop' existing now ds inserts updates = Next (inserts', updates') ->
  exists ys,
    ds = map Ok ys
    /\ (length inserts' + length updates'
        = length inserts + length updates + length ys)%nat.
Proof.
  induction ds as [| [y | err] ds IH]; simpl;
    intros inserts updates inserts' updates' Hloop; [| | discriminate].
  - injection Hloop as <- <-. exists []. split; [reflexivity | simpl; lia].
  - destruct (exporterConfig' y) as [config |]; [| discriminate].
    destruct (existing !! Exporter_Name y) as [current |].
    + destruct (negb (bool_decide (Exporter_Type y = EmptyString)) && _);
        [discriminate |].
      apply IH in Hloop as (ys & -> & Hlen). exists (y :: ys).
      split; [reflexivity |]. rewrite length_app in Hlen. simpl in *. lia.
    + apply IH in Hloop as (ys & -> & Hlen). exists (y :: ys).
      split; [reflexivity |]. rewrite length_app in Hlen. simpl in *. lia.
Qed.

(** X7: a batch that passes validation has decoded entirely and yields
    exactly one operation per record: the inserts and the updates together
    are as many as the records of the body.  Holds for both loops. *)
Theorem accepted_batch_one_operation_per_record :
  (forall existing now ds inserts updates,
      credLoop' existing now ds [] [] = Next (inserts, updates) ->
      exists ys, ds = map Ok ys
                 /\ (length inserts + length updates = length ys)%nat)
  /\ (forall existing now ds inserts updates,
      expLoop' existing now ds [] [] = Next (inserts, updates) ->
      exists ys, ds = map Ok ys
                 /\ (length inserts + length updates = length ys)%nat).
Proof.
  split; intros existing now ds inserts updates Hloop.
  - apply credLoop_count in Hloop as (ys & -> & Hlen). now exists ys.
  - apply expLoop_count in Hloop as (ys & -> & Hlen). now exists ys.
Qed.

Lemma credLoop_stamped existing now ds : forall inserts updates inserts' updates',
  credLoop' existing now ds inserts updates = Next (inserts', updates') ->
  Forall (fun i => ci_CreatedAt i = now /\ ci_UpdatedAt i = now) inserts ->
  Forall (fun u => cu_UpdatedAt u = now) updates ->
  Forall (fun i => ci_CreatedAt i = now /\ ci_UpdatedAt i = now) inserts'
  /\ Forall (fun u => cu_UpdatedAt u = now) updates'.
Proof.
  induction ds as [| [y | err] ds IH]; simpl;
    intros inserts updates inserts' updates' Hloop Hins Hupd; [| | discriminate].
  - injection Hloop as <- <-. now split.
  - destruct (validate _ _ _) as [value |]; [| discriminate].
    destruct (existing !! Credential_Name y) as [current |].
    + destruct (negb _ && negb _); [discriminate |].
      apply IH in Hloop; [exact Hloop | exact Hins |].
      apply Forall_app. split; [exact Hupd | now repeat constructor].
    + apply IH in Hloop; [exact Hloop | | exact Hupd].
      apply Forall_app. split; [exact Hins | now repeat constructor].
Qed.

Lemma expLoop_stamped existing now ds : forall inserts updates inserts' updates',
  expLoop' existing now ds inserts updates = Next (inserts', updates') ->
  Forall (fun i => ei_CreatedAt i = now /\ ei_UpdatedAt i = now
                   /\ ei_Credential i <> Some EmptyString) inserts ->
  Forall (fun u => eu_UpdatedAt u = now
                   /\ eu_Credential u <> Some EmptyString) updates ->
  Forall (fun i => ei_CreatedAt i = now /\ ei_UpdatedAt i = now
                   /\ ei_Credential i <> Some EmptyString) inserts'
  /\ Forall (fun u => eu_UpdatedAt u = now
                      /\ eu_Credential u <> Some EmptyString) updates'.
Proof.
  induction ds as [| [y | err] ds IH]; simpl;
    intros inserts updates inserts' updates' Hloop Hins Hupd; [| | discriminate].
  - injection Hloop as <- <-. now split.
  - destruct (exporterConfig' y) as [config |]; [| discriminate].
    assert (Hcred : (if decide (Exporter_Credential y = EmptyString)
                     then None else Some (Exporter_Credential y))
                    <> Some EmptyString).
    { destruct (decide (Exporter_Credential y = EmptyString));
        [discriminate | congruence]. }
    destruct (existing !! Exporter_Name y) as [current |].
    + destruct (negb (bool_decide (Exporter_Type y = EmptyString)) && _);
        [discriminate |].
      apply IH in Hloop; [exact Hloop | exact Hins |].
      apply Forall_app. split; [exact Hupd | now repeat constructor].
    + apply IH in Hloop; [exact Hloop | | exact Hupd].
      apply Forall_app. split; [exact Hins | now repeat constructor].
Qed.

(** X8: whatever the existing set, every operation of a batch that passes
    validation carries the one now of the request: created_at and
    updated_at on every insert, updated_at on every update.  Holds for both
    loops. *)
Theorem accepted_batch_shares_one_timestamp :
  (forall existing now ds inserts updates,
      credLoop' existing now ds [] [] = Next (inserts, updates) ->
      Forall (fun i => ci_CreatedAt i = now /\ ci_UpdatedAt i = now) inserts
      /\ Forall (fun u => cu_UpdatedAt u = now) updates)
  /\ (forall existing now ds inserts updates,
      expLoop' existing now ds [] [] = Next (inserts, updates) ->
      Forall (fun i => ei_CreatedAt i = now /\ ei_UpdatedAt i = now) inserts
      /\ Forall (fun u => eu_UpdatedAt u = now) updates).
Proof.
  split; intros existing now ds inserts updates Hloop.
  - now apply credLoop_stamped in Hloop.
  - apply expLoop_stamped in Hloop as [Hins Hupd]; [| constructor ..].
    split; (eapply Forall_impl; [eassumption |]); simpl; tauto.
Qed.

End LoopProperties.

Lemma expLoop_credentials (json_Marshal : value -> result Json)
    existing now ys : forall inserts updates inserts' updates',
  expLoop json_Marshal existing now (map Ok ys) inserts updates
  = Next (inserts', updates') ->
  map ei_Credential inserts'
  = map ei_Credential inserts
      ++ map exp_credential
           (filter (fun y => existing !! Exporter_Name y = None) ys)
  /\ map eu_Credential updates'
     = map eu_Credential updates
         ++ map exp_credential
              (filter (fun y => is_Some (existing !! Exporter_Name y)) ys).
Proof.
  induction ys as [| y ys IH]; intros inserts updates inserts' updates'.
  - simpl. intros [= <- <-]. now rewrite !app_nil_r.
  - simpl. destruct (exporterConfig json_Marshal y) as [config |];
      [| discriminate].
    destruct (existing !! Exporter_Name y) as [current |] eqn:Hlk.
    + destruct (negb (bool_decide (Exporter_Type y = EmptyString)) && _);
        [discriminate |].
      intros Hloop. apply IH in Hloop as [-> ->].
      rewrite !filter_cons, Hlk.
      rewrite (decide_False (P := _ = None)) by discriminate.
      rewrite (decide_True (P := is_Some _)) by (now eexists).
      rewrite map_app, <- app_assoc. done.
    + intros Hloop. apply IH in Hloop as [-> ->].
      rewrite !filter_cons, Hlk.
      rewrite (decide_True (P := _ = None)) by reflexivity.
      rewrite (decide_False (P := is_Some _)) by (intros [? [=]]).
      rewrite map_app, <- app_assoc. done.
Qed.

(** X9: the credential reference writeExporters hands to the store is
    decided by the submitted record alone: in a batch that passes
    validation, the insert or update of a record submitted without
    credential (or with the empty string) carries no reference at all
    (nil), and that of every other record carries the submitted reference;
    so no operation ever carries a reference to the empty name. *)
Theorem exporter_credential_reference_never_empty
    (json_Marshal : value -> result Json) existing now ds inserts updates :
  expLoop json_Marshal existing now ds [] [] = Next (inserts, updates) ->
  let reference (y : Exporter) : option string :=
    if decide (Exporter_Credential y = EmptyString) then None
    else Some (Exporter_Credential y) in
  (Forall (fun i => ei_Credential i <> Some EmptyString) inserts
   /\ Forall (fun u => eu_Credential u <> Some EmptyString) updates)
  /\ exists ys,
      ds = map Ok ys
      /\ map ei_Credential inserts
         = map reference
             (filter (fun y => existing !! Exporter_Name y = None) ys)
      /\ map eu_Credential updates
         = map reference
             (filter (fun y => is_Some (existing !! Exporter_Name y)) ys).
Proof.
  intros Hloop reference. split.
  - apply expLoop_stamped in Hloop as [Hins Hupd]; [| constructor ..].
    split.
    + eapply Forall_impl; [exact Hins |]. now intros i (_ & _ & Hi).
    + eapply Forall_impl; [exact Hupd |]. now intros u (_ & Hu).
  - destruct (expLoop_count json_Marshal _ _ _ _ _ _ _ Hloop)
      as (ys & -> & _).
    exists ys. split; [reflexivity |].
    now apply expLoop_credentials in Hloop.
Qed.

Section Acceptance.

Variable json_String : string -> string.
Variable json_Valid : string -> bool.
Variable json_Marshal : value -> result Json.

Local Abbreviation validate := (validateCredValue json_String json_Valid).
Local Abbreviation credLoop' := (credLoop json_String json_Valid).
Local Abbreviation expLoop' := (expLoop json_Marshal).
Local Abbreviation exporterConfig' := (exporterConfig json_Marshal).
Local Abbreviation cred_rejected' := (cred_rejected json_String json_Valid).
Local Abbreviation exp_rejected' := (exp_rejected json_Marshal).

Lemma credLoop_accepts existing now ds :
  Forall (fun d => ~ cred_rejected' existing d) ds ->
  forall inserts updates,
  exists inserts' updates',
    credLoop' existing now ds inserts updates = Next (inserts', updates').
Proof.
  induction 1 as [| d ds Hd Hds IH]; intros inserts updates; simpl; [eauto |].
  destruct d as [y | err]; [| destruct Hd; constructor].
  destruct (validate _ _ _) as [value |] eqn:Hv;
    [| destruct Hd; eapply cred_rejected_value; exact Hv].
  destruct (existing !! Credential_Name y) as [current |] eqn:Hlk; [| apply IH].
  destruct (negb _ && negb _) eqn:Hch; [| apply IH].
  apply type_change_true in Hch as [Hne Hdiff].
  destruct Hd. now apply cred_rejected_type_change with (current := current).
Qed.

Lemma exporterConfig_rejected existing y resp :
  exporterConfig' y = Return resp -> exp_rejected' existing (Ok y).
Proof.
  unfold exporterConfig.
  destruct (Exporter_Config y) as [c | l | m | m] eqn:Hcfg;
    try (intros _; apply exp_rejected_not_map; intros m'; rewrite Hcfg;
         discriminate).
  destruct (recurseMapStringKeys (Map m)) as [convMap | err] eqn:Hrec.
  - destruct (json_Marshal convMap) as [json | err] eqn:Hj; [discriminate |].
    intros _. eapply exp_rejected_marshal; eassumption.
  - intros _. eapply exp_rejected_keys; eassumption.
Qed.

Lemma expLoop_accepts existing now ds :
  Forall (fun d => ~ exp_rejected' existing d) ds ->
  forall inserts updates,
  exists inserts' updates',
    expLoop' existing now ds inserts updates = Next (inserts', updates').
Proof.
  induction 1 as [| d ds Hd Hds IH]; intros inserts updates; simpl; [eauto |].
  destruct d as [y | err]; [| destruct Hd; constructor].
  destruct (exporterConfig' y) as [config | resp] eqn:Hv;
    [| destruct Hd; eapply exporterConfig_rejected; exact Hv].
  destruct (existing !! Exporter_Name y) as [current |] eqn:Hlk; [| apply IH].
  destruct (negb (bool_decide (Exporter_Type y = EmptyString)) && _) eqn:Hch;
    [| apply IH].
  apply type_change_true in Hch as [Hne Hdiff].
  destruct Hd. now apply exp_rejected_type_change with (current := current).
Qed.

(** X10: the loops reject a batch for the listed reasons only: a body
    passes validation exactly when none of its records fails to decode,
    fails its value or config validation, or changes the type of an
    existing resource.  Holds for both loops. *)
Theorem batch_accepted_iff_no_record_rejected :
  (forall existing now ds,
      (exists inserts updates,
          credLoop' existing now ds [] [] = Next (inserts, updates))
      <-> ~ Exists (cred_rejected' existing) ds)
  /\ (forall existing now ds,
      (exists inserts updates,
          expLoop' existing now ds [] [] = Next (inserts, updates))
      <-> ~ Exists (exp_rejected' existing) ds).
Proof.
  split; intros existing now ds; split.
  - intros (inserts & updates & Hloop) Hex.
    destruct (credLoop_rejected json_String json_Valid existing now ds Hex [] [])
      as (resp & Hret & _). congruence.
  - intros Hnone. apply credLoop_accepts.
    apply Forall_forall. intros d Hd Hrej. apply Hnone.
    apply Exists_exists. eauto.
  - intros (inserts & updates & Hloop) Hex.
    destruct (expLoop_rejected json_String json_Valid json_Marshal
                existing now ds Hex [] [])
      as (resp & Hret & _). congruence.
  - intros Hnone. apply expLoop_accepts.
    apply Forall_forall. intros d Hd Hrej. apply Hnone.
    apply Exists_exists. eauto.
Qed.


End Acceptance.

(** ** The outcomes of the write handlers *)

Lemma serial_calls_planned planned log failure :
  serial planned log failure -> Forall (fun e => fst e ∈ planned) log.
Proof.
  induction 1 as [| c planned log failure _ IH | c planned err].
  - constructor.
  - constructor; [now left |].
    eapply Forall_impl; [exact IH |]. intros e He. now right.
  - repeat constructor.
Qed.

Lemma last_all_ok (planned : list Call) (c0 c : Call) (e : string) :
  last ((c0, None) :: map (fun c => (c, @None string)) planned)
  <> Some (c, Some e).
Proof.
  revert c0. induction planned as [| c1 planned IH]; intros c0; simpl.
  - discriminate.
  - apply IH.
Qed.

Section WriteOutcomes.

Variable json_String : string -> string.
Variable json_Valid : string -> bool.
Variable json_Marshal : value -> result Json.
Context {St : Type} `{!CredentialAccess St} `{!ExporterAccess St}.

Local Abbreviation credLoop' := (credLoop json_String json_Valid).
Local Abbreviation expLoop' := (expLoop json_Marshal).
Local Abbreviation writeCredentials' :=
  (writeCredentials json_String json_Valid (St := St)).
Local Abbreviation writeExporters' :=
  (writeExporters json_Marshal (St := St)).

Lemma credLoop_return existing now ds : forall inserts updates resp,
  credLoop' existing now ds inserts updates = Return resp ->
  status resp = StatusBadRequest
  /\ resp <> http_Error cred_missing StatusBadRequest.
Proof.
  induction ds as [| [y | err] ds IH]; simpl; intros inserts updates resp Hret.
  - discriminate.
  - destruct (validateCredValue _ _ _ _ _) as [value |].
    + destruct (existing !! Credential_Name y) as [current |];
        [| now apply IH in Hret].
      destruct (negb _ && negb _); [| now apply IH in Hret].
      injection Hret as <-. split; [reflexivity | discriminate].
    + injection Hret as <-. split; [reflexivity | discriminate].
  - injection Hret as <-. split; [reflexivity | discriminate].
Qed.

Lemma expLoop_return existing now ds : forall inserts updates resp,
  expLoop' existing now ds inserts updates = Return resp ->
  status resp = StatusBadRequest
  /\ resp <> http_Error exp_missing StatusBadRequest.
Proof.
  induction ds as [| [y | err] ds IH]; simpl; intros inserts updates resp Hret.
  - discriminate.
  - destruct (exporterConfig json_Marshal y) as [config | r] eqn:Hcfg.
    + destruct (existing !! Exporter_Name y) as [current |];
        [| now apply IH in Hret].
      destruct (negb (bool_decide (Exporter_Type y = EmptyString)) && _);
        [| now apply IH in Hret].
      injection Hret as <-. split; [reflexivity | discriminate].
    + injection Hret as <-. unfold exporterConfig in Hcfg.
      destruct (Exporter_Config y) as [c | l | m | m];
        try (injection Hcfg as <-; split; [reflexivity | discriminate]).
      destruct (recurseMapStringKeys (Map m)) as [convMap |];
        [| injection Hcfg as <-; split; [reflexivity | discriminate]].
      destruct (json_Marshal convMap); [discriminate |].
      injection Hcfg as <-. split; [reflexivity | discriminate].
  - injection Hret as <-. split; [reflexivity | discriminate].
Qed.

(** The four ways a write request on credentials can go. *)
Lemma writeCredentials_cases (r : Request Credential) now (w : World St) :
  (exists err, getTenant r = Err err
               /\ writeCredentials' r now w
                  = (http_Error err StatusBadRequest, w))
  \/ exists tenant, getTenant r = Ok tenant /\
     ((exists err s,
          cred_List tenant (store w) = (Err err, s)
          /\ writeCredentials' r now w
             = (http_Error (cred_list_failed tenant err)
                  StatusInternalServerError,
                mkWorld s (calls w ++ [(CredList tenant, Some err)])))
      \/ (exists rows s resp,
             cred_List tenant (store w) = (Ok rows, s)
             /\ status resp = StatusBadRequest
             /\ (req_Body r = []
                 <-> resp = http_Error cred_missing StatusBadRequest)
             /\ writeCredentials' r now w
                = (resp, mkWorld s (calls w ++ [(CredList tenant, None)])))
      \/ (exists rows s ys inserts updates log failure,
             cred_List tenant (store w) = (Ok rows, s)
             /\ req_Body r = map Ok ys /\ ys <> []
             /\ (length inserts + length updates = length ys)%nat
             /\ serial (cred_plan tenant inserts updates) log failure
             /\ writeCredentials' r now w
                = (commit_response failure,
                   mkWorld (replay (map fst log) s)
                     (calls w ++ (CredList tenant, None) :: log)))).
Proof.
  unfold writeCredentials, bind, invoke.
  destruct (getTenant r) as [tenant | err]; [right | left; now exists err].
  exists tenant. split; [reflexivity |].
  destruct (cred_List tenant (store w)) as [[rows | err] s] eqn:Hlist; simpl;
    [| left; now exists err, s].
  right.
  destruct (credLoop' (credExistingTypes rows) now (req_Body r) [] [])
    as [[inserts updates] | resp] eqn:Hloop.
  - pose proof (credLoop_count json_String json_Valid _ _ _ _ _ _ _ Hloop)
      as (ys & Hbody & Hlen). simpl in Hlen.
    destruct ys as [| y ys].
    + left. destruct inserts, updates; try discriminate.
      exists rows, s, (http_Error cred_missing StatusBadRequest).
      repeat split; auto.
    + right. destruct (credCommit_serial tenant inserts updates
                         (mkWorld s (calls w ++ [(CredList tenant, None)])))
        as (log & failure & Hrun & Hserial).
      { destruct inserts, updates; simpl in Hlen; try lia; auto. }
      exists rows, s, (y :: ys), inserts, updates, log, failure.
      repeat split; auto.
      rewrite Hrun. simpl. now rewrite <- app_assoc.
  - left. apply credLoop_return in Hloop as Hret. destruct Hret as [Hst Hne].
    exists rows, s, resp. repeat split; auto; [| congruence].
    intros Hbody. rewrite Hbody in Hloop. discriminate.
Qed.

(** The four ways a write request on exporters can go. *)
Lemma writeExporters_cases (r : Request Exporter) now (w : World St) :
  (exists err, getTenant r = Err err
               /\ writeExporters' r now w
                  = (http_Error err StatusBadRequest, w))
  \/ exists tenant, getTenant r = Ok tenant /\
     ((exists err s,
          exp_List tenant (store w) = (Err err, s)
          /\ writeExporters' r now w
             = (http_Error (exp_list_failed tenant err)
                  StatusInternalServerError,
                mkWorld s (calls w ++ [(ExpList tenant, Some err)])))
      \/ (exists rows s resp,
             exp_List tenant (store w) = (Ok rows, s)
             /\ status resp = StatusBadRequest
             /\ (req_Body r = []
                 <-> resp = http_Error exp_missing StatusBadRequest)
             /\ writeExporters' r now w
                = (resp, mkWorld s (calls w ++ [(ExpList tenant, None)])))
      \/ (exists rows s ys inserts updates log failure,
             exp_List tenant (store w) = (Ok rows, s)
             /\ req_Body r = map Ok ys /\ ys <> []
             /\ (length inserts + length updates = length ys)%nat
             /\ serial (exp_plan tenant inserts updates) log failure
             /\ writeExporters' r now w
                = (commit_response failure,
                   mkWorld (replay (map fst log) s)
                     (calls w ++ (ExpList tenant, None) :: log)))).
Proof.
  unfold writeExporters, bind, invoke.
  destruct (getTenant r) as [tenant | err]; [right | left; now exists err].
  exists tenant. split; [reflexivity |].
  destruct (exp_List tenant (store w)) as [[rows | err] s] eqn:Hlist; simpl;
    [| left; now exists err, s].
  right.
  destruct (expLoop' (expExistingTypes rows) now (req_Body r) [] [])
    as [[inserts updates] | resp] eqn:Hloop.
  - pose proof (expLoop_count json_Marshal _ _ _ _ _ _ _ Hloop)
      as (ys & Hbody & Hlen). simpl in Hlen.
    destruct ys as [| y ys].
    + left. destruct inserts, updates; try discriminate.
      exists rows, s, (http_Error exp_missing StatusBadRequest).
      repeat split; auto.
    + right. destruct (expCommit_serial tenant inserts updates
                         (mkWorld s (calls w ++ [(ExpList tenant, None)])))
        as (log & failure & Hrun & Hserial).
      { destruct inserts, updates; simpl in Hlen; try lia; auto. }
      exists rows, s, (y :: ys), inserts, updates, log, failure.
      repeat split; auto.
      rewrite Hrun. simpl. now rewrite <- app_assoc.
  - left. apply expLoop_return in Hloop as Hret. destruct Hret as [Hst Hne].
    exists rows, s, resp. repeat split; auto; [| congruence].
    intros Hbody. rewrite Hbody in Hloop. discriminate.
Qed.

End WriteOutcomes.

Lemma status_codes_differ :
  StatusOK <> StatusBadRequest /\ StatusOK <> StatusInternalServerError
  /\ StatusBadRequest <> StatusInternalServerError.
Proof.
  unfold StatusOK, StatusBadRequest, StatusInternalServerError.
  repeat split; intros H; apply Nat.eqb_eq in H; vm_compute in H;
    discriminate H.
Qed.

Lemma commit_response_status failure :
  status (commit_response failure)
  = match failure with
    | None => StatusOK
    | Some _ => StatusInternalServerError
    end.
Proof. now destruct failure as [[c e] |]. Qed.

Lemma cred_plan_tenant tenant inserts updates :
  Forall (fun c => call_tenant c = tenant) (cred_plan tenant inserts updates).
Proof.
  unfold cred_plan. apply Forall_app. split.
  - destruct (decide (inserts = [])); repeat constructor.
  - apply Forall_forall. intros c Hc.
    apply list_elem_of_fmap in Hc as (u & -> & _). reflexivity.
Qed.

Lemma exp_plan_tenant tenant inserts updates :
  Forall (fun c => call_tenant c = tenant) (exp_plan tenant inserts updates).
Proof.
  unfold exp_plan. apply Forall_app. split.
  - destruct (decide (inserts = [])); repeat constructor.
  - apply Forall_forall. intros c Hc.
    apply list_elem_of_fmap in Hc as (u & -> & _). reflexivity.
Qed.

Lemma serial_log_tenant tenant planned log failure :
  Forall (fun c => call_tenant c = tenant) planned ->
  serial planned log failure ->
  Forall (fun e => call_tenant (fst e) = tenant) log.
Proof.
  intros Hplan Hserial. apply serial_calls_planned in Hserial.
  rewrite Forall_forall in Hserial. rewrite Forall_forall in Hplan.
  apply Forall_forall. intros e He. apply Hplan. now apply Hserial.
Qed.

(** What a serial run leaves in the log, by its failure. *)
Lemma serial_log planned log failure :
  serial planned log failure ->
  match failure with
  | None => log = map (fun c => (c, None)) planned
  | Some (c, err) =>
      exists before, log = map (fun c => (c, None)) before ++ [(c, Some err)]
  end.
Proof.
  intros Hserial. destruct failure as [[c err] |].
  - apply serial_stops in Hserial as (before & -> & _). now exists before.
  - now apply serial_complete.
Qed.

Ltac status_case :=
  first [ congruence
        | intros; congruence
        | intros (? & ? & [=])
        | intros _; now repeat constructor ].

Section WriteOutcomeTheorems.

Variable json_String : string -> string.
Variable json_Valid : string -> bool.
Variable json_Marshal : value -> result Json.
Context {St : Type} `{!CredentialAccess St} `{!ExporterAccess St}.

Local Abbreviation writeCredentials' :=
  (writeCredentials json_String json_Valid (St := St)).
Local Abbreviation writeExporters' :=
  (writeExporters json_Marshal (St := St)).

(** The status of a write response against the log of the calls made. *)
Lemma write_status_by_log :
  (forall (r : Request Credential) now (w : World St) resp w',
      writeCredentials' r now w = (resp, w') ->
      exists log,
        calls w' = calls w ++ log
        /\ (status resp = StatusOK \/ status resp = StatusBadRequest
            \/ status resp = StatusInternalServerError)
        /\ (status resp = StatusInternalServerError
            <-> exists c e, last log = Some (c, Some e))
        /\ (status resp = StatusBadRequest ->
            Forall (fun e => is_write (fst e) = false) log)
        /\ (status resp = StatusOK ->
            resp = no_content
            /\ exists tenant ys inserts updates,
                req_Body r = map Ok ys /\ ys <> []
                /\ (length inserts + length updates = length ys)%nat
                /\ log = (CredList tenant, None)
                           :: map (fun c => (c, None))
                                (cred_plan tenant inserts updates)))
  /\ (forall (r : Request Exporter) now (w : World St) resp w',
      writeExporters' r now w = (resp, w') ->
      exists log,
        calls w' = calls w ++ log
        /\ (status resp = StatusOK \/ status resp = StatusBadRequest
            \/ status resp = StatusInternalServerError)
        /\ (status resp = StatusInternalServerError
            <-> exists c e, last log = Some (c, Some e))
        /\ (status resp = StatusBadRequest ->
            Forall (fun e => is_write (fst e) = false) log)
        /\ (status resp = StatusOK ->
            resp = no_content
            /\ exists tenant ys inserts updates,
                req_Body r = map Ok ys /\ ys <> []
                /\ (length inserts + length updates = length ys)%nat
                /\ log = (ExpList tenant, None)
                           :: map (fun c => (c, None))
                                (exp_plan tenant inserts updates))).
Proof.
  destruct status_codes_differ as (H24 & H25 & H45).
  split; intros r now w resp w' Hout.
  - destruct (writeCredentials_cases json_String json_Valid r now w)
      as [(err & _ & Hrun)
         | (tenant & _ & [(err & s & _ & Hrun)
                         | [(rows & s & resp' & _ & Hst & _ & Hrun)
                           | (rows & s & ys & inserts & updates & log & failure
                              & _ & Hbody & Hne & Hlen & Hserial & Hrun)]])];
      rewrite Hrun in Hout; injection Hout as <- <-.
    + exists []. simpl. rewrite app_nil_r.
      repeat split; auto; status_case.
    + exists [(CredList tenant, Some err)]. simpl.
      repeat split; eauto; status_case.
    + exists [(CredList tenant, None)]. simpl. rewrite Hst.
      repeat split; auto; status_case.
    + exists ((CredList tenant, None) :: log). simpl.
      rewrite commit_response_status.
      apply serial_log in Hserial.
      destruct failure as [[c e] |].
      * destruct Hserial as (before & ->).
        repeat split; auto; try status_case.
        intros _. exists c, e.
        change ((CredList tenant, None)
                  :: map (fun c => (c, None)) before ++ [(c, Some e)])
          with (((CredList tenant, @None string)
                   :: map (fun c => (c, None)) before) ++ [(c, Some e)]).
        apply last_snoc.
      * subst log. repeat split; auto; try status_case;
          try (exfalso;
               match goal with
               | H : last _ = Some _ |- _ => now apply last_all_ok in H
               end).
        exists tenant, ys, inserts, updates. auto.
  - destruct (writeExporters_cases json_Marshal r now w)
      as [(err & _ & Hrun)
         | (tenant & _ & [(err & s & _ & Hrun)
                         | [(rows & s & resp' & _ & Hst & _ & Hrun)
                           | (rows & s & ys & inserts & updates & log & failure
                              & _ & Hbody & Hne & Hlen & Hserial & Hrun)]])];
      rewrite Hrun in Hout; injection Hout as <- <-.
    + exists []. simpl. rewrite app_nil_r.
      repeat split; auto; status_case.
    + exists [(ExpList tenant, Some err)]. simpl.
      repeat split; eauto; status_case.
    + exists [(ExpList tenant, None)]. simpl. rewrite Hst.
      repeat split; auto; status_case.
    + exists ((ExpList tenant, None) :: log). simpl.
      rewrite commit_response_status.
      apply serial_log in Hserial.
      destruct failure as [[c e] |].
      * destruct Hserial as (before & ->).
        repeat split; auto; try status_case.
        intros _. exists c, e.
        change ((ExpList tenant, None)
                  :: map (fun c => (c, None)) before ++ [(c, Some e)])
          with (((ExpList tenant, @None string)
                   :: map (fun c => (c, None)) before) ++ [(c, Some e)]).
        apply last_snoc.
      * subst log. repeat split; auto; try status_case;
          try (exfalso;
               match goal with
               | H : last _ = Some _ |- _ => now apply last_all_ok in H
               end).
        exists tenant, ys, inserts, updates. auto.
Qed.

Lemma writeCredentials_answered (r : Request Credential) now (w : World St) :
  exists log,
    calls (snd (writeCredentials' r now w)) = calls w ++ log
    /\ answered_by (store w) log
    /\ store (snd (writeCredentials' r now w)) = replay (map fst log) (store w).
Proof.
  unfold writeCredentials, bind, invoke.
  destruct (getTenant r) as [tenant | err];
    [| exists []; simpl; now rewrite app_nil_r].
  destruct (cred_List tenant (store w)) as [[rows | err] s] eqn:Hlist; simpl.
  - destruct (credLoop json_String json_Valid (credExistingTypes rows) now
                (req_Body r) [] []) as [[inserts updates] | resp].
    + destruct (decide (inserts = [] /\ updates = [])) as [[-> ->] | Hne].
      * exists [(CredList tenant, None)]. simpl. now rewrite Hlist.
      * destruct (credCommit_run tenant inserts updates
                    (mkWorld s (calls w ++ [(CredList tenant, None)])))
          as (log & failure & s' & Hplan & Hrun).
        { destruct inserts, updates; auto; now destruct Hne. }
        apply run_plan_serial in Hplan as (_ & Hstore & Hans).
        exists ((CredList tenant, None) :: log). rewrite Hrun. simpl in *.
        rewrite Hlist, <- app_assoc. simpl. now repeat split.
    + exists [(CredList tenant, None)]. simpl. now rewrite Hlist.
  - exists [(CredList tenant, Some err)]. simpl. now rewrite Hlist.
Qed.

Lemma writeExporters_answered (r : Request Exporter) now (w : World St) :
  exists log,
    calls (snd (writeExporters' r now w)) = calls w ++ log
    /\ answered_by (store w) log
    /\ store (snd (writeExporters' r now w)) = replay (map fst log) (store w).
Proof.
  unfold writeExporters, bind, invoke.
  destruct (getTenant r) as [tenant | err];
    [| exists []; simpl; now rewrite app_nil_r].
  destruct (exp_List tenant (store w)) as [[rows | err] s] eqn:Hlist; simpl.
  - destruct (expLoop json_Marshal (expExistingTypes rows) now
                (req_Body r) [] []) as [[inserts updates] | resp].
    + destruct (decide (inserts = [] /\ updates = [])) as [[-> ->] | Hne].
      * exists [(ExpList tenant, None)]. simpl. now rewrite Hlist.
      * destruct (expCommit_run tenant inserts updates
                    (mkWorld s (calls w ++ [(ExpList tenant, None)])))
          as (log & failure & s' & Hplan & Hrun).
        { destruct inserts, updates; auto; now destruct Hne. }
        apply run_plan_serial in Hplan as (_ & Hstore & Hans).
        exists ((ExpList tenant, None) :: log). rewrite Hrun. simpl in *.
        rewrite Hlist, <- app_assoc. simpl. now repeat split.
    + exists [(ExpList tenant, None)]. simpl. now rewrite Hlist.
  - exists [(ExpList tenant, Some err)]. simpl. now rewrite Hlist.
Qed.

(** X12: the status of a write response tells what happened at the store.
    The log holds the calls the handler made with what the store answered
    to each, and the store is left as these calls made it.  The status is
    200, 400 or 500; it is 500 exactly when the last call made on the store
    was answered with an error; with 400 no insert and no update was
    submitted; and with 200 the body is empty, the request held at least
    one record, every record decoded and gave one operation, and every
    call of the plan (bulk insert, then the updates) was made and answered
    without error.  Holds for writeCredentials and writeExporters. *)
Theorem write_status_reflects_store_calls :
  (forall (r : Request Credential) now (w : World St) resp w',
      writeCredentials' r now w = (resp, w') ->
      exists log,
        calls w' = calls w ++ log
        /\ answered_by (store w) log
        /\ store w' = replay (map fst log) (store w)
        /\ (status resp = StatusOK \/ status resp = StatusBadRequest
            \/ status resp = StatusInternalServerError)
        /\ (status resp = StatusInternalServerError
            <-> exists c e, last log = Some (c, Some e))
        /\ (status resp = StatusBadRequest ->
            Forall (fun e => is_write (fst e) = false) log)
        /\ (status resp = StatusOK ->
            resp = no_content
            /\ exists tenant ys inserts updates,
                req_Body r = map Ok ys /\ ys <> []
                /\ (length inserts + length updates = length ys)%nat
                /\ log = (CredList tenant, None)
                           :: map (fun c => (c, None))
                                (cred_plan tenant inserts updates)))
  /\ (forall (r : Request Exporter) now (w : World St) resp w',
      writeExporters' r now w = (resp, w') ->
      exists log,
        calls w' = calls w ++ log
        /\ answered_by (store w) log
        /\ store w' = replay (map fst log) (store w)
        /\ (status resp = StatusOK \/ status resp = StatusBadRequest
            \/ status resp = StatusInternalServerError)
        /\ (status resp = StatusInternalServerError
            <-> exists c e, last log = Some (c, Some e))
        /\ (status resp = StatusBadRequest ->
            Forall (fun e => is_write (fst e) = false) log)
        /\ (status resp = StatusOK ->
            resp = no_content
            /\ exists tenant ys inserts updates,
                req_Body r = map Ok ys /\ ys <> []
                /\ (length inserts + length updates = length ys)%nat
                /\ log = (ExpList tenant, None)
                           :: map (fun c => (c, None))
                                (exp_plan tenant inserts updates))).
Proof.
  split; intros r now w resp w' Hout.
  - destruct (proj1 write_status_by_log r now w resp w' Hout)
      as (log & Hcalls & Hrest).
    destruct (writeCredentials_answered r now w)
      as (log' & Hcalls' & Hans & Hstore).
    rewrite Hout in Hcalls', Hstore. simpl in Hcalls', Hstore.
    rewrite Hcalls in Hcalls'. apply app_inv_head in Hcalls'. subst log'.
    exists log. auto.
  - destruct (proj2 write_status_by_log r now w resp w' Hout)
      as (log & Hcalls & Hrest).
    destruct (writeExporters_answered r now w)
      as (log' & Hcalls' & Hans & Hstore).
    rewrite Hout in Hcalls', Hstore. simpl in Hcalls', Hstore.
    rewrite Hcalls in Hcalls'. apply app_inv_head in Hcalls'. subst log'.
    exists log. auto.
Qed.

End WriteOutcomeTheorems.

Section TenantScope.

Variable json_String : string -> string.
Variable json_Valid : string -> bool.
Variable json_Marshal : value -> result Json.
Context {St : Type} `{!CredentialAccess St} `{!ExporterAccess St}.

Local Abbreviation writeCredentials' :=
  (writeCredentials json_String json_Valid (St := St)).
Local Abbreviation writeExporters' :=
  (writeExporters json_Marshal (St := St)).

(** X13: every call a handler makes on the store is made for the tenant
    of the request header, and a request without a valid tenant makes no
    call at all.  Holds for listCredentials, getCredential,
    writeCredentials and writeExporters. *)
Theorem store_calls_carry_request_tenant :
  (forall R (r : Request R) (w : World St),
      exists log,
        calls (snd (listCredentials r w)) = calls w ++ log
        /\ Forall (fun e => getTenant r = Ok (call_tenant (fst e))) log)
  /\ (forall R (r : Request R) (w : World St),
      exists log,
        calls (snd (getCredential r w)) = calls w ++ log
        /\ Forall (fun e => getTenant r = Ok (call_tenant (fst e))) log)
  /\ (forall (r : Request Credential) now (w : World St),
      exists log,
        calls (snd (writeCredentials' r now w)) = calls w ++ log
        /\ Forall (fun e => getTenant r = Ok (call_tenant (fst e))) log)
  /\ (forall (r : Request Exporter) now (w : World St),
      exists log,
        calls (snd (writeExporters' r now w)) = calls w ++ log
        /\ Forall (fun e => getTenant r = Ok (call_tenant (fst e))) log).
Proof.
  split; [| split; [| split]].
  - intros R r w. unfold listCredentials, bind, invoke, ret.
    destruct (getTenant r) as [tenant | err].
    + destruct (cred_List tenant (store w)) as [[rows | err] s];
        eexists; (split; [reflexivity | now repeat constructor]).
    + exists []. simpl. rewrite app_nil_r. split; [reflexivity | constructor].
  - intros R r w. unfold getCredential, bind, invoke, ret.
    destruct (getTenant r) as [tenant | err].
    + destruct (cred_Get tenant (req_Name r) (store w))
        as [[[row |] | err] s];
        eexists; (split; [reflexivity | now repeat constructor]).
    + exists []. simpl. rewrite app_nil_r. split; [reflexivity | constructor].
  - intros r now w.
    destruct (writeCredentials_cases json_String json_Valid r now w)
      as [(err & _ & Hrun)
         | (tenant & Hten & [(err & s & _ & Hrun)
                            | [(rows & s & resp' & _ & _ & _ & Hrun)
                              | (rows & s & ys & inserts & updates & log
                                 & failure & _ & _ & _ & _ & Hserial & Hrun)]])];
      rewrite Hrun; simpl.
    + exists []. rewrite app_nil_r. split; [reflexivity | constructor].
    + eexists. split; [reflexivity |]. rewrite Hten. now repeat constructor.
    + eexists. split; [reflexivity |]. rewrite Hten. now repeat constructor.
    + eexists. split; [reflexivity |]. rewrite Hten.
      constructor; [reflexivity |].
      eapply Forall_impl;
        [exact (serial_log_tenant tenant _ _ _
                  (cred_plan_tenant tenant inserts updates) Hserial) |].
      intros e He. simpl in He. now rewrite He.
  - intros r now w.
    destruct (writeExporters_cases json_Marshal r now w)
      as [(err & _ & Hrun)
         | (tenant & Hten & [(err & s & _ & Hrun)
                            | [(rows & s & resp' & _ & _ & _ & Hrun)
                              | (rows & s & ys & inserts & updates & log
                                 & failure & _ & _ & _ & _ & Hserial & Hrun)]])];
      rewrite Hrun; simpl.
    + exists []. rewrite app_nil_r. split; [reflexivity | constructor].
    + eexists. split; [reflexivity |]. rewrite Hten. now repeat constructor.
    + eexists. split; [reflexivity |]. rewrite Hten. now repeat constructor.
    + eexists. split; [reflexivity |]. rewrite Hten.
      constructor; [reflexivity |].
      eapply Forall_impl;
        [exact (serial_log_tenant tenant _ _ _
                  (exp_plan_tenant tenant inserts updates) Hserial) |].
      intros e He. simpl in He. now rewrite He.
Qed.

(** X14: with a valid tenant and a listing that succeeds, a write request
    is answered with the missing-data error exactly when its body holds no
    document at all, and then nothing but the listing has reached the
    store.  Holds for writeCredentials and writeExporters. *)
Theorem missing_data_error_iff_empty_body :
  (forall (r : Request Credential) now (w : World St) tenant rows s,
      getTenant r = Ok tenant ->
      cred_List tenant (store w) = (Ok rows, s) ->
      (fst (writeCredentials' r now w)
       = http_Error cred_missing StatusBadRequest
       <-> req_Body r = [])
      /\ (req_Body r = [] ->
          snd (writeCredentials' r now w)
          = mkWorld s (calls w ++ [(CredList tenant, None)])))
  /\ (forall (r : Request Exporter) now (w : World St) tenant rows s,
      getTenant r = Ok tenant ->
      exp_List tenant (store w) = (Ok rows, s) ->
      (fst (writeExporters' r now w)
       = http_Error exp_missing StatusBadRequest
       <-> req_Body r = [])
      /\ (req_Body r = [] ->
          snd (writeExporters' r now w)
          = mkWorld s (calls w ++ [(ExpList tenant, None)]))).
Proof.
  split; intros r now w tenant rows s Hten Hlist.
  - destruct (writeCredentials_cases json_String json_Valid r now w)
      as [(err & Hten' & Hrun)
         | (tenant' & Hten' & [(err & s' & Hlist' & Hrun)
                              | [(rows' & s' & resp' & Hlist' & _ & Hiff & Hrun)
                                | (rows' & s' & ys & inserts & updates & log
                                   & failure & Hlist' & Hbody & Hne & _ & _
                                   & Hrun)]])];
      try congruence; rewrite Hrun; simpl;
      assert (tenant' = tenant) as -> by congruence;
      rewrite Hlist in Hlist'; try discriminate;
      injection Hlist' as <- <-.
    + split; [now symmetry | reflexivity].
    + split.
      * split.
        -- intros Hresp. apply (f_equal status) in Hresp.
           rewrite commit_response_status in Hresp.
           destruct status_codes_differ as (H24 & H25 & H45).
           destruct failure; simpl in Hresp; congruence.
        -- intros Hnil. rewrite Hnil in Hbody. now destruct ys.
      * intros Hnil. rewrite Hnil in Hbody. now destruct ys.
  - destruct (writeExporters_cases json_Marshal r now w)
      as [(err & Hten' & Hrun)
         | (tenant' & Hten' & [(err & s' & Hlist' & Hrun)
                              | [(rows' & s' & resp' & Hlist' & _ & Hiff & Hrun)
                                | (rows' & s' & ys & inserts & updates & log
                                   & failure & Hlist' & Hbody & Hne & _ & _
                                   & Hrun)]])];
      try congruence; rewrite Hrun; simpl;
      assert (tenant' = tenant) as -> by congruence;
      rewrite Hlist in Hlist'; try discriminate;
      injection Hlist' as <- <-.
    + split; [now symmetry | reflexivity].
    + split.
      * split.
        -- intros Hresp. apply (f_equal status) in Hresp.
           rewrite commit_response_status in Hresp.
           destruct status_codes_differ as (H24 & H25 & H45).
           destruct failure; simpl in Hresp; congruence.
        -- intros Hnil. rewrite Hnil in Hbody. now destruct ys.
      * intros Hnil. rewrite Hnil in Hbody. now destruct ys.
Qed.

End TenantScope.

(** ** existingTypes and the listing *)

Lemma last_type_is_Some name rows :
  is_Some (last_type name rows) <-> name ∈ map fst rows.
Proof.
  induction rows as [| [n t] rows IH]; simpl.
  - split; [intros [? [=]] | intros H; now apply elem_of_nil in H].
  - rewrite elem_of_cons, <- IH.
    destruct (last_type name rows) as [t' |].
    + split; [right | ]; eauto.
    + destruct (decide (n = name)) as [-> |].
      * split; eauto.
      * split; [intros [? [=]] | intros [? | [? [=]]]; congruence].
Qed.

Lemma fold_insert_lookup {A} (f g : A -> string) (rows : list A) :
  forall (m0 : gmap string string) name,
    fold_left (fun m c => <[f c := g c]> m) rows m0 !! name
    = match last_type name (map (fun c => (f c, g c)) rows) with
      | Some t => Some t
      | None => m0 !! name
      end.
Proof.
  induction rows as [| c rows IH]; intros m0 name; simpl; [reflexivity |].
  rewrite IH. destruct (last_type name _) as [t |]; [reflexivity |].
  destruct (decide (f c = name)) as [<- |].
  - apply lookup_insert_eq.
  - now apply lookup_insert_ne.
Qed.

(** X15: the existing set follows the listing: a name is in it exactly when
    a listed row bears it, and it is then mapped to the type of the last
    such row; so a submitted record is an update exactly when the listing
    holds a row with its name.  Holds for credentials and exporters. *)
Theorem existing_types_follow_the_listing :
  (forall rows name,
      credExistingTypes rows !! name
      = last_type name (map (fun c => (cr_Name c, cr_Type c)) rows)
      /\ (is_Some (credExistingTypes rows !! name)
          <-> name ∈ map cr_Name rows))
  /\ (forall rows name,
      expExistingTypes rows !! name
      = last_type name (map (fun e => (er_Name e, er_Type e)) rows)
      /\ (is_Some (expExistingTypes rows !! name)
          <-> name ∈ map er_Name rows)).
Proof.
  split; intros rows name.
  - assert (Hlk : credExistingTypes rows !! name
                  = last_type name (map (fun c => (cr_Name c, cr_Type c)) rows)).
    { unfold credExistingTypes. rewrite fold_insert_lookup, lookup_empty.
      now destruct (last_type _ _). }
    split; [exact Hlk |]. rewrite Hlk, last_type_is_Some, map_map. reflexivity.
  - assert (Hlk : expExistingTypes rows !! name
                  = last_type name (map (fun e => (er_Name e, er_Type e)) rows)).
    { unfold expExistingTypes. rewrite fold_insert_lookup, lookup_empty.
      now destruct (last_type _ _). }
    split; [exact Hlk |]. rewrite Hlk, last_type_is_Some, map_map. reflexivity.
Qed.

(** ** Deletes and exporter reads *)

Lemma strmap_get_set k v m : strmap_get k (strmap_set k v m) = Some v.
Proof.
  induction m as [| [k' v'] m IH]; simpl.
  - now rewrite decide_True.
  - destruct (decide (k' = k)) as [-> | Hne]; simpl.
    + now rewrite decide_True.
    + now rewrite decide_False.
Qed.

Section ReadAndDeleteProofs.

Variable json_Unmarshal : string -> list (string * value) * option string.
Context {St : Type} `{!CredentialDelete St} `{!ExporterReads St}.

Local Abbreviation exporterInfo' := (exporterInfo json_Unmarshal).
Local Abbreviation listExporters' := (listExporters json_Unmarshal (St := St)).
Local Abbreviation getExporter' := (getExporter json_Unmarshal (St := St)).

(** X16: with a valid tenant, deleteCredential answers 404 exactly when
    the store reports that there was no such credential, 500 exactly when
    the store call fails, and otherwise 200 with one document that holds
    the name of the deleted credential and no other field; the store is
    left as the Delete call left it. *)
Theorem deleteCredential_outcomes
    {R} (r : Request R) (s : St) (tenant : string) :
  getTenant r = Ok tenant ->
  let answer := fst (cred_Delete tenant (req_Name r) s) in
  let resp := fst (deleteCredential r s) in
  (status resp = StatusNotFound <-> answer = Ok None)
  /\ (status resp = StatusInternalServerError <-> exists e, answer = Err e)
  /\ (forall deleted, answer = Ok (Some deleted) ->
      resp = mkResponse StatusOK [YamlDoc [("name", deleted)]])
  /\ snd (deleteCredential r s) = snd (cred_Delete tenant (req_Name r) s).
Proof.
  intros Hten. unfold deleteCredential. rewrite Hten.
  destruct (cred_Delete tenant (req_Name r) s) as [[[deleted |] | err] s'];
    simpl; repeat split; intros; try discriminate; try congruence; eauto;
    match goal with
    | H : @eq nat _ _ |- _ =>
        apply Nat.eqb_eq in H; vm_compute in H; discriminate H
    | H : exists e, _ = Err e |- _ => destruct H as (? & [=])
    | H : Ok (Some _) = Ok (Some _) |- _ => injection H as ->; reflexivity
    end.
Qed.

(** X17: the exporter read handlers never fail on a stored config: a
    config that does not parse as JSON is shown as a map whose key json
    holds the stored string, a config that parses is shown as parsed; a
    listing answers 200 with one document per row; and the document
    getExporter shows for a row is the one listExporters shows for it. *)
Theorem exporter_reads_pass_bad_config_through :
  (forall row m e,
      json_Unmarshal (ef_Config row) = (m, Some e) ->
      exists config,
        ExporterInfo_Config (exporterInfo' row) = Some (StrMap config)
        /\ strmap_get "json" config = Some (VStr (ef_Config row)))
  /\ (forall row m,
      json_Unmarshal (ef_Config row) = (m, None) ->
      ExporterInfo_Config (exporterInfo' row) = Some (StrMap m))
  /\ (forall R (r : Request R) (s : St) tenant rows s',
      getTenant r = Ok tenant ->
      exp_Rows tenant s = (Ok rows, s') ->
      exporter_status (fst (listExporters' r s)) = StatusOK
      /\ length (exporter_body (fst (listExporters' r s))) = length rows
      /\ forall row s'',
          row ∈ rows ->
          exp_Get tenant (req_Name r) s = (Ok (Some row), s'') ->
          exporter_status (fst (getExporter' r s)) = StatusOK
          /\ Forall (fun doc => doc ∈ exporter_body (fst (listExporters' r s)))
               (exporter_body (fst (getExporter' r s)))).
Proof.
  split; [| split].
  - intros row m e Hj. unfold exporterInfo, exporterConfigJSON. simpl.
    rewrite Hj. eexists. split; [reflexivity | apply strmap_get_set].
  - intros row m Hj. unfold exporterInfo, exporterConfigJSON. simpl.
    now rewrite Hj.
  - intros R r s tenant rows s' Hten Hrows.
    unfold listExporters, getExporter. rewrite Hten, Hrows. simpl.
    split; [reflexivity |]. split; [apply length_map |].
    intros row s'' Hin Hget. rewrite Hget. simpl.
    split; [reflexivity |]. repeat constructor.
    apply list_elem_of_fmap. now exists row.
Qed.

End ReadAndDeleteProofs.

(** ** The further properties on concrete requests *)

Lemma accepted_batch_one_operation_per_record_witness :
  exists ys,
    [Ok Fixture.cred_aws; Ok Fixture.cred_gcp] = map Ok ys
    /\ (length
          [mkCredentialInsertInput "c1" "aws-key"
             (aws_json (quoted "A") (quoted "B")) Fixture.now Fixture.now;
           mkCredentialInsertInput "c2" "gcp-service-account"
             Fixture.sample_json Fixture.now Fixture.now]
        + length (@nil UpdateCredentialVariables)
        = length ys)%nat.
Proof.
  apply (proj1 (accepted_batch_one_operation_per_record Fixture.json_String
                  Fixture.json_Valid Fixture.json_Marshal)
           ∅ Fixture.now [Ok Fixture.cred_aws; Ok Fixture.cred_gcp]).
  vm_compute. reflexivity.
Defined.

Lemma accepted_batch_shares_one_timestamp_witness :
  Forall (fun i => ci_CreatedAt i = Fixture.now /\ ci_UpdatedAt i = Fixture.now)
    [mkCredentialInsertInput "c3" "gcp-service-account"
       Fixture.sample_json Fixture.now Fixture.now]
  /\ Forall (fun u => cu_UpdatedAt u = Fixture.now)
       [mkUpdateCredentialVariables "c1"
          (aws_json (quoted "A2") (quoted "B2")) Fixture.now].
Proof.
  apply (proj1 (accepted_batch_shares_one_timestamp Fixture.json_String
                  Fixture.json_Valid Fixture.json_Marshal)
           {["c1" := "aws-key"]} Fixture.now
           [Ok Fixture.cred_new; Ok Fixture.cred_c1_again]).
  vm_compute. reflexivity.
Defined.

Lemma exporter_credential_reference_never_empty_witness :
  let reference (y : Exporter) : option string :=
    if decide (Exporter_Credential y = EmptyString) then None
    else Some (Exporter_Credential y) in
  let existing : gmap string string := {["e2" := "cloudwatch"]} in
  let inserts :=
    [mkExporterInsertInput "e1" EmptyString None "{}" Fixture.now Fixture.now] in
  let updates :=
    [mkUpdateExporterVariables "e2" (Some "c1") "{}" Fixture.now] in
  (Forall (fun i => ei_Credential i <> Some EmptyString) inserts
   /\ Forall (fun u => eu_Credential u <> Some EmptyString) updates)
  /\ exists ys,
      [Ok Fixture.exp_untyped; Ok Fixture.exp_cloudwatch] = map Ok ys
      /\ map ei_Credential inserts
         = map reference
             (filter (fun y => existing !! Exporter_Name y = None) ys)
      /\ map eu_Credential updates
         = map reference
             (filter (fun y => is_Some (existing !! Exporter_Name y)) ys).
Proof.
  apply (exporter_credential_reference_never_empty Fixture.json_Marshal
           {["e2" := "cloudwatch"]} Fixture.now
           [Ok Fixture.exp_untyped; Ok Fixture.exp_cloudwatch]).
  vm_compute. reflexivity.
Defined.

Lemma batch_accepted_iff_no_record_rejected_witness :
  ~ Exists (cred_rejected Fixture.json_String Fixture.json_Valid ∅)
      [Ok Fixture.cred_aws; Ok Fixture.cred_gcp].
Proof.
  apply (proj1 (proj1 (batch_accepted_iff_no_record_rejected
                         Fixture.json_String Fixture.json_Valid
                         Fixture.json_Marshal)
                  ∅ Fixture.now [Ok Fixture.cred_aws; Ok Fixture.cred_gcp])).
  eexists _, _. vm_compute. reflexivity.
Defined.


Lemma write_status_reflects_store_calls_witness :
  exists log,
    [(CredList "tenant1", None);
     (CredInsert "tenant1"
        [mkCredentialInsertInput "c3" "gcp-service-account"
           Fixture.sample_json Fixture.now Fixture.now], None);
     (CredUpdate "tenant1"
        (mkUpdateCredentialVariables "c1"
           (aws_json (quoted "A2") (quoted "B2")) Fixture.now),
      Some "locked")]
    = [] ++ log
    /\ answered_by (Fixture.stocked "s3cr3t") log
    /\ (StatusInternalServerError = StatusInternalServerError
        <-> exists c e, last log = Some (c, Some e)).
Proof.
  destruct (proj1 (write_status_reflects_store_calls Fixture.json_String
                     Fixture.json_Valid Fixture.json_Marshal)
              (Fixture.request [Ok Fixture.cred_new; Ok Fixture.cred_c1_again;
                                Ok Fixture.cred_gcp])
              Fixture.now (Fixture.world (Fixture.stocked "s3cr3t"))
              _ _ commit_stops_at_refused_update)
    as (log & Hcalls & Hans & _ & _ & H500 & _).
  exists log. split; [exact Hcalls |]. split; [exact Hans | exact H500].
Defined.

Lemma missing_data_error_iff_empty_body_witness :
  fst (writeCredentials Fixture.json_String Fixture.json_Valid
         (Fixture.request []) Fixture.now (Fixture.world Fixture.empty))
  = http_Error cred_missing StatusBadRequest.
Proof.
  destruct (proj1 (missing_data_error_iff_empty_body Fixture.json_String
                     Fixture.json_Valid Fixture.json_Marshal)
              (Fixture.request []) Fixture.now (Fixture.world Fixture.empty)
              "tenant1" [] Fixture.empty) as [Hiff _];
    [reflexivity | reflexivity |].
  apply Hiff. reflexivity.
Defined.

Lemma existing_types_follow_the_listing_witness :
  is_Some (credExistingTypes [Fixture.row_c1 "s3cr3t"; Fixture.row_c2] !! "c2").
Proof.
  apply (proj2 (proj1 existing_types_follow_the_listing
                  [Fixture.row_c1 "s3cr3t"; Fixture.row_c2] "c2")).
  compute_done.
Defined.

Lemma deleteCredential_outcomes_witness :
  fst (deleteCredential (Fixture.request (R := Credential) [])
         FixtureReads.store)
  = mkResponse StatusOK [YamlDoc [("name", "c1")]].
Proof.
  apply (deleteCredential_outcomes (Fixture.request (R := Credential) [])
           FixtureReads.store "tenant1" eq_refl).
  reflexivity.
Defined.

Lemma exporter_reads_pass_bad_config_through_witness :
  exists config,
    ExporterInfo_Config
      (exporterInfo FixtureReads.json_Unmarshal FixtureReads.bad_row)
    = Some (StrMap config)
    /\ strmap_get "json" config = Some (VStr "{oops").
Proof.
  apply (proj1 (exporter_reads_pass_bad_config_through
                  FixtureReads.json_Unmarshal (St := FixtureReads.Store))
           FixtureReads.bad_row [] "invalid character").
  reflexivity.
Defined.
